(** * The [help] command of the cf CLI: a shallow embedding and its properties

    Source: [src/command/common/help_command.go].

    The Go code is a method set on [HelpCommand]; it talks to three
    collaborators (the [HelpActor], the [command.Config], the [command.UI])
    and to the helper package [command/common/internal].  The embedding keeps
    that shape:

    - structs are records, one module per struct, fields under the Go names;
    - a call on a collaborator that the properties talk about (the actor's
      lookups, [Config.Plugins], every [UI.Display...]) is logged, in program
      order, in the trace of the [Go] monad below; [BinaryName],
      [BinaryVersion] and [TranslateText] are read-only getters and are
      modelled as plain fields;
    - a run-time panic (here: [strings.Repeat] with a negative count) stops
      the run and is kept as the outcome;
    - Go's [int] is [Z]; every integer of this file is a string or slice
      length, or a sum of two of them, far inside the 64-bit range. *)

From stdpp Require Import base strings list gmap sorting.
From Stdlib Require Import ZArith Lia.
From Stdlib Require QArith Qround.

Local Open Scope Z_scope.

(** ** Data model *)

(** [sharedaction.CommandFlag] *)
Module CommandFlag.
Record t := mk { Short : string; Long : string; Description : string }.
End CommandFlag.

(** [sharedaction.EnvironmentVariable] *)
Module EnvironmentVariable.
Record t := mk { Name : string; DefaultValue : string; Description : string }.
End EnvironmentVariable.

(** [sharedaction.CommandInfo] *)
Module CommandInfo.
Record t := mk {
  Name : string;
  Description : string;
  Alias : string;
  Usage : string;
  RelatedCommands : list string;
  Flags : list CommandFlag.t;
  Environment : list EnvironmentVariable.t
}.
(** Go's zero value, what [cmdInfo[command]] yields for a missing key. *)
Definition zero : t := mk "" "" "" "" [] [] [].
End CommandInfo.

(** [configv3.PluginCommand]: the fields the help command and the spec name. *)
Module PluginCommand.
Record t := mk {
  Name : string;
  Alias : string;
  HelpText : string;
  Flags : list CommandFlag.t
}.
End PluginCommand.

(** [configv3.Plugin], the value type of [Config.Plugins()]. *)
Module Plugin.
Record t := mk { Commands : list PluginCommand.t }.
Definition zero : t := mk [].
End Plugin.

(** [internal.HelpCategory] *)
Module HelpCategory.
Record t := mk { CategoryName : string; CommandList : list (list string) }.
End HelpCategory.

(** Go's [error] values as the code distinguishes them: the type assertion
    [err.(sharedaction.ErrorInvalidCommand)] succeeds on the first
    constructor only. *)
Inductive error :=
| ErrorInvalidCommand (CommandName : string)
| ErrorOther (message : string).

(** The type assertion [err.(sharedaction.ErrorInvalidCommand)] in its
    two-value form: the asserted value and [ok]; when the assertion does not
    hold the value is the zero value of the asserted type,
    [ErrorInvalidCommand{}]. *)
Definition assert_ErrorInvalidCommand (err : error) : error * bool :=
  match err with
  | ErrorInvalidCommand name => (ErrorInvalidCommand name, true)
  | ErrorOther _ => (ErrorInvalidCommand "", false)
  end.

(** [HelpActor].  The first argument of both methods in Go is the static
    command list [Commands], the same at every call; it is left out.
    [CommandInfoByName] returns Go's pair (value, error). *)
Module HelpActor.
Record t := mk {
  CommandInfoByName : string → CommandInfo.t * option error;
  CommandInfos : gmap string CommandInfo.t
}.
End HelpActor.

(** [command.Config].  [Plugins()] is a Go map; [range] visits a Go map in an
    order that is not specified, so the map is kept as the list of its
    entries in the order this run visits them.  Its keys are pairwise
    distinct: the properties that need it say so with [NoDup]. *)
Module Config.
Record t := mk {
  Plugins : list (string * Plugin.t);
  BinaryName : string;
  BinaryVersion : string
}.
End Config.

(** [command.UI]: the translation function; the display methods are the
    [UI_...] calls of the trace. *)
Module UI.
Record t := mk { TranslateText : string → string }.
End UI.

(** [flag.CommandName] *)
Module CommandName.
Record t := mk { CommandName : string }.
End CommandName.

Module HelpCommand.
Record t := mk {
  UI : UI.t;
  Actor : HelpActor.t;
  Config : Config.t;
  OptionalArgs : CommandName.t;
  AllCommands : bool
}.
End HelpCommand.

(** ** Effects: the trace of collaborator calls, and panics *)

Inductive Call :=
| Actor_CommandInfoByName (commandName : string)
| Actor_CommandInfos
| Config_Plugins
| UI_DisplayHeader (text : string)
| UI_DisplayText (template : string) (vars : list (string * string))
| UI_DisplayNewline
| UI_DisplayTable (prefix : string) (table : list (list string)) (padding : Z).

Inductive Outcome (A : Type) :=
| Returns (a : A)
| Panics (msg : string).
Arguments Returns {A} a.
Arguments Panics {A} msg.

(** A run: the calls made, in order, and how the run ended. *)
Definition Go (A : Type) : Type := list Call * Outcome A.

Definition calls {A} (m : Go A) : list Call := m.1.
Definition outcome {A} (m : Go A) : Outcome A := m.2.

Definition Go_ret {A} (a : A) : Go A := ([], Returns a).

Definition Go_bind {A B} (f : A → Go B) (m : Go A) : Go B :=
  match m.2 with
  | Returns a => (m.1 ++ (f a).1, (f a).2)
  | Panics msg => (m.1, Panics msg)
  end.

#[export] Instance Go_mret : MRet Go := @Go_ret.
#[export] Instance Go_mbind : MBind Go := @Go_bind.

Definition call (c : Call) : Go unit := ([c], Returns ()).
Definition panic {A} (msg : string) : Go A := ([], Panics msg).

(** [for _, x := range l { body x }] over a slice. *)
Fixpoint for_range {A} (l : list A) (body : A → Go unit) : Go unit :=
  match l with
  | [] => mret ()
  | x :: l' => body x;; for_range l' body
  end.

(** ** The Go library functions the file calls *)

(** [len(s)] of a string: its number of bytes. *)
Definition len (s : string) : Z := Z.of_nat (String.length s).

Fixpoint repeat_string (s : string) (n : nat) : string :=
  match n with
  | O => ""
  | S n' => s +:+ repeat_string s n'
  end.

(** [strings.Repeat(s, count)]: panics when [count] is negative. *)
Definition strings_Repeat (s : string) (count : Z) : Go string :=
  if decide (count < 0) then panic "strings: negative Repeat count"
  else mret (repeat_string s (Z.to_nat count)).

(** [strings.Join(elems, sep)] *)
Fixpoint strings_Join (elems : list string) (sep : string) : string :=
  match elems with
  | [] => ""
  | [e] => e
  | e :: elems' => e +:+ sep +:+ strings_Join elems' sep
  end.

(** [strings.Replace(s, old, new, -1)] for a non-empty [old]: every
    non-overlapping occurrence, left to right.  [skip] counts the bytes of an
    occurrence of [old] still to be dropped. *)
Fixpoint replace_from (old new : string) (skip : nat) (s : string) : string :=
  match s with
  | EmptyString => ""
  | String c s' =>
      match skip with
      | S k => replace_from old new k s'
      | O =>
          if String.prefix old s
          then new +:+ replace_from old new (String.length old - 1) s'
          else String c (replace_from old new O s')
      end
  end.

Definition strings_Replace (s old new : string) : string :=
  replace_from old new O s.

(** The value of a byte of a string. *)
Definition byte_value (c : Ascii.ascii) : N := Ascii.N_of_ascii c.

(** The tables [first] and [acceptRanges] of [unicode/utf8]: for a byte
    that can start a rune of several bytes, the size of the rune and the
    range its second byte has to be in; [None] for the other bytes (ASCII,
    continuation bytes, [0xC0], [0xC1] and [0xF5] to [0xFF]). *)
Definition utf8_first (b : N) : option (nat * (N * N)) :=
  (if b <? 0xC2 then None
   else if b <? 0xE0 then Some (2%nat, (0x80, 0xBF))
   else if b =? 0xE0 then Some (3%nat, (0xA0, 0xBF))
   else if b =? 0xED then Some (3%nat, (0x80, 0x9F))
   else if b <? 0xF0 then Some (3%nat, (0x80, 0xBF))
   else if b =? 0xF0 then Some (4%nat, (0x90, 0xBF))
   else if b <? 0xF4 then Some (4%nat, (0x80, 0xBF))
   else if b =? 0xF4 then Some (4%nat, (0x80, 0x8F))
   else None)%N.

(** The rest of the string after one more byte of a rune, when there is
    such a byte and it is in the range. *)
Definition utf8_continues (lo hi : N) (s : string) : option string :=
  match s with
  | String c rest =>
      if ((lo <=? byte_value c) && (byte_value c <=? hi))%N then Some rest
      else None
  | EmptyString => None
  end.

(** The number of bytes of the rune that starts with the byte [c] followed
    by [rest], as [utf8.RuneCountInString] steps over it: a byte that starts
    no rune, or a rune cut short or continued by a byte out of range, counts
    as one byte. *)
Definition utf8_rune_size (c : Ascii.ascii) (rest : string) : nat :=
  match utf8_first (byte_value c) with
  | None => 1
  | Some (size, (lo, hi)) =>
      match utf8_continues lo hi rest with
      | None => 1
      | Some rest1 =>
          if decide (size = 2%nat) then 2
          else match utf8_continues 0x80 0xBF rest1 with
               | None => 1
               | Some rest2 =>
                   if decide (size = 3%nat) then 3
                   else match utf8_continues 0x80 0xBF rest2 with
                        | None => 1
                        | Some _ => 4
                        end
               end
      end
  end.

(** [utf8.RuneCountInString(s)].  [skip] counts the bytes of the current
    rune still to be stepped over. *)
Fixpoint rune_count_from (skip : nat) (s : string) : nat :=
  match s with
  | EmptyString => 0
  | String c rest =>
      match skip with
      | S k => rune_count_from k rest
      | O => S (rune_count_from (utf8_rune_size c rest - 1) rest)
      end
  end.

Definition utf8_RuneCountInString (s : string) : nat := rune_count_from 0 s.

(** [fmt.Sprintf("%-29s", s)]: [s] followed by spaces up to the width, which
    [fmt] counts in runes ([utf8.RuneCountInString]); no truncation. *)
Definition fmt_pad_right (width : nat) (s : string) : string :=
  s +:+ repeat_string " " (width - utf8_RuneCountInString s).

(** [sort.Interface]: [Len] and [Swap] are those of a slice; [Less] is what
    an implementation chooses. *)
Class sort_Interface (A : Type) := Less : A → A → bool.

(** The order [sort.Sort] sorts into: no element is [Less] than an earlier
    one. *)
Definition sort_le {A} `{sort_Interface A} (a b : A) : Prop := Less b a = false.

(** The packages that are not part of this file's source enter as
    parameters: [sort.Sort] of the Go library, and of package [internal] the
    two category tables and the plugin-to-CommandInfo conversion. *)
Class sort_pkg := sort_Sort : ∀ A, sort_Interface A → list A → list A.
Arguments sort_Sort {_ A _} data.

(** What the Go library documents for [sort.Sort]: the result is a
    rearrangement of the input, in ascending order for [Less] (no stability
    is promised), provided [Less] is a consistent ordering. *)
Class sort_contract `{sort_pkg} : Prop := {
  sort_Sort_Permutation :
    ∀ A (I : sort_Interface A) (data : list A), sort_Sort data ≡ₚ data;
  sort_Sort_Sorted :
    ∀ A (I : sort_Interface A) (data : list A),
      Transitive (@sort_le A I) → Total (@sort_le A I) →
      StronglySorted sort_le (sort_Sort data)
}.

Class internal_pkg := {
  HelpCategoryList : list HelpCategory.t;
  CommonHelpCategoryList : list HelpCategory.t;
  ConvertPluginToCommandInfo : PluginCommand.t → CommandInfo.t
}.

(** Modelled from the spec: [sorting.Alphabetic.Less] (package
    [util/sorting], not among the source files), from "Sort plugin names
    alphabetically (case-sensitive, ordinal/byte-wise comparison)". *)
#[export] Instance Alphabetic_Interface : sort_Interface string :=
  String.ltb.

(** Modelled from the spec: [configv3.PluginCommands.Less] (package
    [util/configv3], not among the source files), from "sort its own
    Commands alphabetically by Name"; the comparison of two names is the
    byte-wise one of plugin names. *)
#[export] Instance PluginCommands_Interface : sort_Interface PluginCommand.t :=
  λ a b, String.ltb (PluginCommand.Name a) (PluginCommand.Name b).

(** The largest [len] of a list of names, 0 for none. *)
Definition max_len (names : list string) : Z :=
  foldr (λ name longest, Z.max (len name) longest) 0 names.

(** The identifiers the category lists of the full listing refer to. *)
Definition referencedCommands `{internal_pkg} : list string :=
  HelpCategoryList ≫= λ category, concat (HelpCategory.CommandList category).

(** Modelled from the spec: [internal.LongestCommandName] (package
    [command/common/internal], not among the source files), from "given the
    built-in command-name → CommandInfo mapping restricted to the
    identifiers actually referenced by the category lists, plus the plugin
    command list, return max(len(name)) across both sets".  The built-in
    names are the keys of the mapping; the category lists are those of
    [HelpCategoryList], of the same package. *)
Definition LongestCommandName `{internal_pkg}
    (cmds : gmap string CommandInfo.t) (pluginCmds : list PluginCommand.t) : Z :=
  Z.max (max_len (filter (λ name, name ∈ referencedCommands)
                         (map_to_list cmds).*1))
        (max_len (PluginCommand.Name <$> pluginCmds)).

(** The name a flag is listed under ([displayCommand], the [if] chain of the
    OPTIONS loop). *)
Definition flagName (flag : CommandFlag.t) : string :=
  if decide (CommandFlag.Short flag ≠ "" ∧ CommandFlag.Long flag ≠ "")
  then "--" +:+ CommandFlag.Long flag +:+ ", -" +:+ CommandFlag.Short flag
  else if decide (CommandFlag.Short flag ≠ "")
  then "-" +:+ CommandFlag.Short flag
  else "--" +:+ CommandFlag.Long flag.

(** Modelled from the spec: [internal.LongestFlagWidth] (package
    [command/common/internal], not among the source files), from "longest
    formatted flag name across the command". *)
Definition LongestFlagWidth (flags : list CommandFlag.t) : Z :=
  max_len (flagName <$> flags).

(** ** The methods of [HelpCommand] *)

Definition commonCommandsIndent : string := "  ".
Definition allCommandsIndent : string := "   ".
Definition commandIndent : string := "   ".

(** [plugins[pluginName]] on the entries of the map: the zero [Plugin] for a
    missing key. *)
Fixpoint map_index (plugins : list (string * Plugin.t)) (key : string) : Plugin.t :=
  match plugins with
  | [] => Plugin.zero
  | (k, v) :: rest => if decide (k = key) then v else map_index rest key
  end.

(** [int(math.Ceil(float64(n) / 3))].  The quotient and its ceiling are
    taken in exact rational arithmetic; [float64] agrees with it for every
    length below 2^53, which no slice of plugin commands reaches. *)
Definition ceil_third (n : nat) : nat :=
  Z.to_nat (Qround.Qceiling (QArith_base.Qmake (Z.of_nat n) 3)).

(** The table of the plugin block of [displayCommonCommands]: the two nested
    [for] loops over [i < size] and [j < 3]; a cell that is not assigned
    keeps the empty string [make] put there. *)
Definition pluginCommandsTable (pluginCommands : list PluginCommand.t)
    : list (list string) :=
  let size := ceil_third (length pluginCommands) in
  (λ i : nat,
     (λ j : nat,
        let index := (i + j * size)%nat in
        if decide (index < length pluginCommands)%nat
        then from_option PluginCommand.Name "" (pluginCommands !! index)
        else "") <$> seq 0 3) <$> seq 0 size.

(** One row of a category table of [displayCommonCommands]: the loop over
    the identifiers of the row, appending an entry for those the catalog
    has. *)
Definition commonCommandsRow
    (cmdInfo : gmap string CommandInfo.t) (row : list string) : list string :=
  foldl (λ finalRow command,
           match cmdInfo !! command with
           | Some info =>
               let separator :=
                 if decide (0 < len (CommandInfo.Alias info)) then "," else "" in
               finalRow ++
                 [CommandInfo.Name info +:+ separator +:+ CommandInfo.Alias info]
           | None => finalRow
           end) [] row.

Section Methods.
Context `{sort_pkg} `{internal_pkg}.
Implicit Type cmd : HelpCommand.t.

Definition BinaryName cmd : string :=
  Config.BinaryName (HelpCommand.Config cmd).
Definition BinaryVersion cmd : string :=
  Config.BinaryVersion (HelpCommand.Config cmd).
Definition TranslateText cmd (text : string) : string :=
  UI.TranslateText (HelpCommand.UI cmd) text.
Definition CommandName cmd : string :=
  CommandName.CommandName (HelpCommand.OptionalArgs cmd).

(** [cmd.Config.Plugins()], [cmd.Actor.CommandInfos(Commands)] and
    [cmd.Actor.CommandInfoByName(Commands, name)]: logged calls. *)
Definition Plugins cmd : Go (list (string * Plugin.t)) :=
  call Config_Plugins;; mret (Config.Plugins (HelpCommand.Config cmd)).
Definition CommandInfos cmd : Go (gmap string CommandInfo.t) :=
  call Actor_CommandInfos;; mret (HelpActor.CommandInfos (HelpCommand.Actor cmd)).
Definition CommandInfoByName cmd (name : string)
    : Go (CommandInfo.t * option error) :=
  call (Actor_CommandInfoByName name);;
  mret (HelpActor.CommandInfoByName (HelpCommand.Actor cmd) name).

(** [sort.Sort] sorts the slice it is given in place; the slices sorted
    here are the plugins' own command lists, and no path reads them again
    after this call, so only the returned value is modelled. *)
Definition getSortedPluginCommands cmd : Go (list PluginCommand.t) :=
  plugins ← Plugins cmd;
  let sortedPluginNames :=
    sort_Sort (foldl (λ names entry, names ++ [entry.1]) [] plugins) in
  mret (foldl (λ pluginCommands pluginName,
                 pluginCommands ++
                   sort_Sort (Plugin.Commands (map_index plugins pluginName)))
              [] sortedPluginNames).

Definition findPlugin cmd : Go (CommandInfo.t * bool) :=
  plugins ← Plugins cmd;
  mret (foldr (λ pluginConfig notHere,
                 foldr (λ command notInThisPlugin,
                          if decide (PluginCommand.Name command = CommandName cmd)
                          then (ConvertPluginToCommandInfo command, true)
                          else notInThisPlugin)
                       notHere (Plugin.Commands pluginConfig.2))
              (CommandInfo.zero, false) plugins).

Definition globalOptionsTableData cmd : list (list string) :=
  [ ["--help, -h"; TranslateText cmd "Show help"];
    ["-v"; TranslateText cmd "Print API request diagnostics to stdout"] ].

Definition environmentalVariablesTableData cmd : list (list string) :=
  [ ["CF_COLOR=false"; TranslateText cmd "Do not colorize output"];
    ["CF_DIAL_TIMEOUT=5"; TranslateText cmd "Max wait time to establish a connection, including name resolution, in seconds"];
    ["CF_HOME=path/to/dir/"; TranslateText cmd "Override path to default config directory"];
    ["CF_PLUGIN_HOME=path/to/dir/"; TranslateText cmd "Override path to default plugin config directory"];
    ["CF_TRACE=true"; TranslateText cmd "Print API request diagnostics to stdout"];
    ["CF_TRACE=path/to/trace.log"; TranslateText cmd "Append API request diagnostics to a log file"];
    ["https_proxy=proxy.example.com:8080"; TranslateText cmd "Enable HTTP proxying for API requests"] ].

Definition displayHelpPreamble cmd : Go unit :=
  call (UI_DisplayHeader "NAME:");;
  call (UI_DisplayText (allCommandsIndent +:+ "{{.CommandName}} - {{.CommandDescription}}")
          [("CommandName", BinaryName cmd);
           ("CommandDescription",
            TranslateText cmd "A command line tool to interact with Cloud Foundry")]);;
  call UI_DisplayNewline;;
  call (UI_DisplayHeader "USAGE:");;
  call (UI_DisplayText (allCommandsIndent +:+ "{{.CommandName}} {{.CommandUsage}}")
          [("CommandName", BinaryName cmd);
           ("CommandUsage",
            TranslateText cmd "[global options] command [arguments...] [command options]")]);;
  call UI_DisplayNewline;;
  call (UI_DisplayHeader "VERSION:");;
  call (UI_DisplayText (allCommandsIndent +:+ BinaryVersion cmd) []);;
  call UI_DisplayNewline.

(** One line of the full listing: the gap is computed before the line is
    displayed, so a panic in [strings.Repeat] displays nothing. *)
Definition displayListingLine cmd (name description : string) (gapWidth : Z)
    : Go unit :=
  gap ← strings_Repeat " " gapWidth;
  call (UI_DisplayText
          (allCommandsIndent +:+ "{{.CommandName}}{{.Gap}}{{.CommandDescription}}")
          [("CommandName", name); ("CommandDescription", description); ("Gap", gap)]).

Definition displayAllCommands cmd : Go unit :=
  pluginCommands ← getSortedPluginCommands cmd;
  cmdInfo ← CommandInfos cmd;
  let longestCmd := LongestCommandName cmdInfo pluginCommands in
  for_range HelpCategoryList (λ category,
    call (UI_DisplayHeader (HelpCategory.CategoryName category));;
    for_range (HelpCategory.CommandList category) (λ row,
      for_range row (λ command,
        let info := default CommandInfo.zero (cmdInfo !! command) in
        displayListingLine cmd
          (CommandInfo.Name info)
          (TranslateText cmd (CommandInfo.Description info))
          (longestCmd + 1 - len command));;
      call UI_DisplayNewline));;
  call (UI_DisplayHeader "INSTALLED PLUGIN COMMANDS:");;
  for_range pluginCommands (λ pluginCommand,
    displayListingLine cmd
      (PluginCommand.Name pluginCommand)
      (PluginCommand.HelpText pluginCommand)
      (longestCmd + 1 - len (PluginCommand.Name pluginCommand)));;
  call UI_DisplayNewline.

Definition displayHelpFooter cmd : Go unit :=
  call (UI_DisplayHeader "ENVIRONMENT VARIABLES:");;
  call (UI_DisplayTable allCommandsIndent (environmentalVariablesTableData cmd) 1);;
  call UI_DisplayNewline;;
  call (UI_DisplayHeader "GLOBAL OPTIONS:");;
  call (UI_DisplayTable allCommandsIndent (globalOptionsTableData cmd) 25).

Definition displayCommonCommands cmd : Go unit :=
  cmdInfo ← CommandInfos cmd;
  call (UI_DisplayText "{{.CommandName}} {{.VersionCommand}} {{.Version}}, {{.CLI}}"
          [("CommandName", BinaryName cmd);
           ("VersionCommand", TranslateText cmd "version");
           ("Version", BinaryVersion cmd);
           ("CLI", TranslateText cmd "Cloud Foundry command line tool")]);;
  call (UI_DisplayText "{{.Usage}} {{.CommandName}} {{.CommandUsage}}"
          [("Usage", TranslateText cmd "Usage:");
           ("CommandName", BinaryName cmd);
           ("CommandUsage",
            TranslateText cmd "[global options] command [arguments...] [command options]")]);;
  call UI_DisplayNewline;;
  for_range CommonHelpCategoryList (λ category,
    call (UI_DisplayHeader (HelpCategory.CategoryName category));;
    let table :=
      foldl (λ table row, table ++ [commonCommandsRow cmdInfo row])
            [] (HelpCategory.CommandList category) in
    call (UI_DisplayTable commonCommandsIndent table 4);;
    call UI_DisplayNewline);;
  pluginCommands ← getSortedPluginCommands cmd;
  let table := pluginCommandsTable pluginCommands in
  call (UI_DisplayHeader "Commands offered by installed plugins:");;
  call (UI_DisplayTable commonCommandsIndent table 4);;
  call UI_DisplayNewline;;
  call (UI_DisplayHeader "Global options:");;
  call (UI_DisplayTable commonCommandsIndent (globalOptionsTableData cmd) 25);;
  call UI_DisplayNewline;;
  call (UI_DisplayText "These are commonly used commands. Use 'cf help -a' to see all, with descriptions." []);;
  call (UI_DisplayText "See 'cf help <command>' to read about a specific command." []).

Definition displayFullHelp cmd : Go unit :=
  if HelpCommand.AllCommands cmd then
    displayHelpPreamble cmd;;
    displayAllCommands cmd;;
    displayHelpFooter cmd
  else displayCommonCommands cmd.
End Methods.

Section Methods_displayCommand.
Context `{internal_pkg}.
Implicit Type cmd : HelpCommand.t.

Definition displayFlag cmd (nameWidth : Z) (flag : CommandFlag.t) : Go unit :=
  let name := flagName flag in
  spaces ← strings_Repeat " " (nameWidth - len name);
  call (UI_DisplayText (commandIndent +:+ "{{.Flags}}{{.Spaces}}{{.Description}}")
          [("Flags", name); ("Spaces", spaces);
           ("Description", TranslateText cmd (CommandFlag.Description flag))]).

Definition displayEnvVar cmd (envVar : EnvironmentVariable.t) : Go unit :=
  call (UI_DisplayText (commandIndent +:+ "{{.EnvVar}}{{.Description}}")
          [("EnvVar",
            fmt_pad_right 29 (EnvironmentVariable.Name envVar +:+ "=" +:+
                              EnvironmentVariable.DefaultValue envVar));
           ("Description",
            TranslateText cmd (EnvironmentVariable.Description envVar))]).

(** [displayCommand] from its first [DisplayText] on, once [cmdInfo] is
    resolved. *)
Definition displayCommandInfo cmd (cmdInfo : CommandInfo.t) : Go (option error) :=
  call (UI_DisplayText "NAME:" []);;
  call (UI_DisplayText (commandIndent +:+ "{{.CommandName}} - {{.CommandDescription}}")
          [("CommandName", CommandInfo.Name cmdInfo);
           ("CommandDescription",
            TranslateText cmd (CommandInfo.Description cmdInfo))]);;
  call UI_DisplayNewline;;
  let usageString :=
    strings_Replace (CommandInfo.Usage cmdInfo) "CF_NAME" (BinaryName cmd) in
  call (UI_DisplayText "USAGE:" []);;
  call (UI_DisplayText (commandIndent +:+ "{{.CommandUsage}}")
          [("CommandUsage", TranslateText cmd usageString)]);;
  (if decide (CommandInfo.Alias cmdInfo ≠ "") then
     call UI_DisplayNewline;;
     call (UI_DisplayText "ALIAS:" []);;
     call (UI_DisplayText (commandIndent +:+ "{{.Alias}}")
             [("Alias", CommandInfo.Alias cmdInfo)])
   else mret ());;
  (if decide (length (CommandInfo.Flags cmdInfo) ≠ 0%nat) then
     call UI_DisplayNewline;;
     call (UI_DisplayText "OPTIONS:" []);;
     let nameWidth := LongestFlagWidth (CommandInfo.Flags cmdInfo) + 6 in
     for_range (CommandInfo.Flags cmdInfo) (displayFlag cmd nameWidth)
   else mret ());;
  (if decide (length (CommandInfo.Environment cmdInfo) ≠ 0%nat) then
     call UI_DisplayNewline;;
     call (UI_DisplayText "ENVIRONMENT:" []);;
     for_range (CommandInfo.Environment cmdInfo) (displayEnvVar cmd)
   else mret ());;
  (if decide (0 < length (CommandInfo.RelatedCommands cmdInfo))%nat then
     call UI_DisplayNewline;;
     call (UI_DisplayText "SEE ALSO:" []);;
     call (UI_DisplayText
             (commandIndent +:+ strings_Join (CommandInfo.RelatedCommands cmdInfo) ", ") [])
   else mret ());;
  mret None.

(** [err, ok := err.(sharedaction.ErrorInvalidCommand)] in the header of
    the inner [if] declares a new [err], in scope in both branches: the
    asserted value when the assertion holds, and the zero
    [ErrorInvalidCommand{}] when it does not.  The [return err] of the
    [else] branch returns this new [err]. *)
Definition displayCommand cmd : Go (option error) :=
  '(cmdInfo, err) ← CommandInfoByName cmd (CommandName cmd);
  match err with
  | Some err =>
      let '(err, ok) := assert_ErrorInvalidCommand err in
      if ok then
        '(pluginInfo, found) ← findPlugin cmd;
        if negb found then mret (Some err)
        else displayCommandInfo cmd pluginInfo
      else mret (Some err)
  | None => displayCommandInfo cmd cmdInfo
  end.
End Methods_displayCommand.

Section Methods_Execute.
Context `{sort_pkg} `{internal_pkg}.

Definition Execute (cmd : HelpCommand.t) (args : list string) : Go (option error) :=
  if decide (CommandName cmd = "") then
    displayFullHelp cmd;; mret None
  else displayCommand cmd.
End Methods_Execute.


(** ** Vocabulary of the properties *)

(** The calls on the UI, as opposed to those on the actor and the config. *)
Definition is_UI_call (c : Call) : bool :=
  match c with
  | UI_DisplayHeader _ | UI_DisplayText _ _ | UI_DisplayNewline
  | UI_DisplayTable _ _ _ => true
  | Actor_CommandInfoByName _ | Actor_CommandInfos | Config_Plugins => false
  end.

(** What a run displayed: its calls on the UI, in order. *)
Definition output {A} (m : Go A) : list Call := filter is_UI_call (calls m).

#[export] Instance Call_eq_dec : EqDecision Call.
Proof. solve_decision. Defined.

(** The same command with another plugin map, or another [-a] flag. *)
Definition with_Plugins (plugins : list (string * Plugin.t)) (cmd : HelpCommand.t)
    : HelpCommand.t :=
  let config := HelpCommand.Config cmd in
  HelpCommand.mk (HelpCommand.UI cmd) (HelpCommand.Actor cmd)
    (Config.mk plugins (Config.BinaryName config) (Config.BinaryVersion config))
    (HelpCommand.OptionalArgs cmd) (HelpCommand.AllCommands cmd).

Definition with_AllCommands (all : bool) (cmd : HelpCommand.t) : HelpCommand.t :=
  HelpCommand.mk (HelpCommand.UI cmd) (HelpCommand.Actor cmd)
    (HelpCommand.Config cmd) (HelpCommand.OptionalArgs cmd) all.

(** Cell [[i][j]] of a table. *)
Definition cell (table : list (list string)) (i j : nat) : option string :=
  table !! i ≫= λ row, row !! j.

(** The byte-wise (ordinal) order on strings: lexicographic on the codes of
    the bytes ([String.leb]), a total order. *)
Definition bytewise_le : relation string := String.le.

(** What the actor answers for the command name of the invocation. *)
Definition builtin_lookup (cmd : HelpCommand.t) : CommandInfo.t * option error :=
  HelpActor.CommandInfoByName (HelpCommand.Actor cmd) (CommandName cmd).

(** No plugin has a command called [name]. *)
Definition no_plugin_command (plugins : list (string * Plugin.t)) (name : string)
    : Prop :=
  Forall (λ entry : string * Plugin.t,
            Forall (λ command, PluginCommand.Name command ≠ name)
                   (Plugin.Commands entry.2)) plugins.

(** The lines of the detail page. *)
Definition nameLine (cmd : HelpCommand.t) (cmdInfo : CommandInfo.t) : Call :=
  UI_DisplayText (commandIndent +:+ "{{.CommandName}} - {{.CommandDescription}}")
    [("CommandName", CommandInfo.Name cmdInfo);
     ("CommandDescription", TranslateText cmd (CommandInfo.Description cmdInfo))].

Definition nameAndUsage (cmd : HelpCommand.t) (cmdInfo : CommandInfo.t) : list Call :=
  [ UI_DisplayText "NAME:" [];
    nameLine cmd cmdInfo;
    UI_DisplayNewline;
    UI_DisplayText "USAGE:" [];
    UI_DisplayText (commandIndent +:+ "{{.CommandUsage}}")
      [("CommandUsage",
        TranslateText cmd
          (strings_Replace (CommandInfo.Usage cmdInfo) "CF_NAME" (BinaryName cmd)))] ].

(** A section of the detail page after USAGE: a blank line, the heading,
    the lines. *)
Definition detailSection (heading : string) (lines : list Call) : list Call :=
  UI_DisplayNewline :: UI_DisplayText heading [] :: lines.

Definition aliasLine (cmdInfo : CommandInfo.t) : Call :=
  UI_DisplayText (commandIndent +:+ "{{.Alias}}")
    [("Alias", CommandInfo.Alias cmdInfo)].

Definition flagLine (cmd : HelpCommand.t) (nameWidth : Z) (flag : CommandFlag.t)
    : Call :=
  UI_DisplayText (commandIndent +:+ "{{.Flags}}{{.Spaces}}{{.Description}}")
    [("Flags", flagName flag);
     ("Spaces", repeat_string " " (Z.to_nat (nameWidth - len (flagName flag))));
     ("Description", TranslateText cmd (CommandFlag.Description flag))].

Definition envVarLine (cmd : HelpCommand.t) (envVar : EnvironmentVariable.t)
    : Call :=
  UI_DisplayText (commandIndent +:+ "{{.EnvVar}}{{.Description}}")
    [("EnvVar",
      fmt_pad_right 29 (EnvironmentVariable.Name envVar +:+ "=" +:+
                        EnvironmentVariable.DefaultValue envVar));
     ("Description", TranslateText cmd (EnvironmentVariable.Description envVar))].

Definition seeAlsoLine (cmdInfo : CommandInfo.t) : Call :=
  UI_DisplayText
    (commandIndent +:+ strings_Join (CommandInfo.RelatedCommands cmdInfo) ", ") [].



(** An entry of a common-commands row: [Name], or [Name,Alias]. *)
Definition commonCommandsEntry (info : CommandInfo.t) : string :=
  if decide (CommandInfo.Alias info = "") then CommandInfo.Name info
  else CommandInfo.Name info +:+ "," +:+ CommandInfo.Alias info.

Section Vocabulary.
Context `{internal_pkg}.

(** [cmdInfo] is what [displayCommand] goes on to display: the actor's
    entry, or, when the actor answers [ErrorInvalidCommand], the plugin
    command [findPlugin] finds. *)
Definition resolves (cmd : HelpCommand.t) (cmdInfo : CommandInfo.t) : Prop :=
  match builtin_lookup cmd with
  | (info, None) => cmdInfo = info
  | (_, Some (ErrorInvalidCommand _)) =>
      outcome (findPlugin cmd) = Returns (cmdInfo, true)
  | (_, Some (ErrorOther _)) => False
  end.



End Vocabulary.

(** ** Concrete collaborators, for the examples *)

#[export] Instance sort_le_dec {A} `{sort_Interface A} : RelDecision (@sort_le A _).
Proof. intros a b. unfold sort_le. apply _. Defined.

(** A [sort.Sort]: merge sort into the order of [Less]. *)
Definition merge_sort_pkg : sort_pkg :=
  λ A I data, merge_sort (@sort_le A I) data.

(** Modelled from the spec: [internal.ConvertPluginToCommandInfo] (package
    [command/common/internal], not among the source files), from "converted
    to the CommandInfo shape (HelpText maps to Description; no
    flags/environment/related-commands unless the plugin supplies them)".
    It only instantiates the parameter in the examples. *)
Definition convertPlugin (plugin : PluginCommand.t) : CommandInfo.t :=
  CommandInfo.mk (PluginCommand.Name plugin) (PluginCommand.HelpText plugin)
    (PluginCommand.Alias plugin) "" [] (PluginCommand.Flags plugin) [].

Definition example_internal : internal_pkg := {|
  HelpCategoryList :=
    [ HelpCategory.mk "GETTING STARTED:" [["help"; "login"]; ["target"]] ];
  CommonHelpCategoryList :=
    [ HelpCategory.mk "Before getting started:" [["help"; "login"; "target"]] ];
  ConvertPluginToCommandInfo := convertPlugin
|}.

Definition help_info : CommandInfo.t :=
  CommandInfo.mk "help" "Show help" "h" "CF_NAME help [COMMAND]" [] [] [].
Definition login_info : CommandInfo.t :=
  CommandInfo.mk "login" "Log user in" "l" "CF_NAME login" [] [] [].
Definition target_info : CommandInfo.t :=
  CommandInfo.mk "target" "Set or view the targeted org or space" ""
    "CF_NAME target [-o ORG] [-s SPACE]" ["create-org"; "login"]
    [CommandFlag.mk "o" "" "Organization"; CommandFlag.mk "s" "" "Space"] [].
Definition service_info : CommandInfo.t :=
  CommandInfo.mk "create-user-provided-service"
    "Make a user-provided service instance available to CF apps" "cups"
    "CF_NAME create-user-provided-service SERVICE_INSTANCE" [] [] [].

(** A catalog with one command, [create-user-provided-service], that no
    category of [example_internal] lists. *)
Definition example_catalog : gmap string CommandInfo.t :=
  <["help" := help_info]> (<["login" := login_info]> (<["target" := target_info]>
    (<["create-user-provided-service" := service_info]> ∅))).

(** An actor over a catalog: [ErrorInvalidCommand] for a name it does not
    have, except that the lookup of ["broken"] fails for another reason. *)
Definition catalog_actor (catalog : gmap string CommandInfo.t) : HelpActor.t :=
  HelpActor.mk
    (λ name,
       match catalog !! name with
       | Some info => (info, None)
       | None =>
           if decide (name = "broken")
           then (CommandInfo.zero, Some (ErrorOther "catalog unreadable"))
           else (CommandInfo.zero, Some (ErrorInvalidCommand name))
       end)
    catalog.

Definition plugin_command (name : string) : PluginCommand.t :=
  PluginCommand.mk name "" ("plugin command " +:+ name) [].

(** The plugins of the specification's example, in an order that is not the
    sorted one. *)
Definition example_plugins : list (string * Plugin.t) :=
  [ ("zeta", Plugin.mk [plugin_command "B"; plugin_command "A"]);
    ("alpha", Plugin.mk [plugin_command "D"; plugin_command "C"]) ].

(** A plugin with a command called like the built-in [help]. *)
Definition shadowing_plugins : list (string * Plugin.t) :=
  [ ("shadow", Plugin.mk [plugin_command "help"]) ].

Definition example_cmd (catalog : gmap string CommandInfo.t)
    (plugins : list (string * Plugin.t)) (name : string) (all : bool)
    : HelpCommand.t :=
  HelpCommand.mk (UI.mk (λ text, text)) (catalog_actor catalog)
    (Config.mk plugins "cf" "6.26.0") (CommandName.mk name) all.

(** A catalog that lacks commands the category table lists. *)
Definition sparse_catalog : gmap string CommandInfo.t :=
  <["help" := help_info]> ∅.


(** ** [Setup], and the vocabulary of the further properties *)

(** [sharedaction.NewActor()]: the constructor of a package that is not
    part of the source, a parameter. *)
Class sharedaction_pkg := NewActor : HelpActor.t.

(** [Setup] has a pointer receiver: the command it leaves behind is
    returned with its error. *)
Definition Setup `{sharedaction_pkg} (cmd : HelpCommand.t)
    (config : Config.t) (ui : UI.t) : HelpCommand.t * option error :=
  let cmd := HelpCommand.mk (HelpCommand.UI cmd) NewActor (HelpCommand.Config cmd)
               (HelpCommand.OptionalArgs cmd) (HelpCommand.AllCommands cmd) in
  let cmd := HelpCommand.mk (HelpCommand.UI cmd) (HelpCommand.Actor cmd) config
               (HelpCommand.OptionalArgs cmd) (HelpCommand.AllCommands cmd) in
  let cmd := HelpCommand.mk ui (HelpCommand.Actor cmd) (HelpCommand.Config cmd)
               (HelpCommand.OptionalArgs cmd) (HelpCommand.AllCommands cmd) in
  (cmd, None).

(** The calls of a run on the actor and on the config, in order. *)
Definition collaborator_calls {A} (m : Go A) : list Call :=
  filter (λ c, negb (is_UI_call c)) (calls m).

(** A table read column by column: column 0 from the top, then column 1,
    then column 2. *)
Definition readColumns (table : list (list string)) : list string :=
  seq 0 3 ≫= λ j, (λ row, default "" (row !! j)) <$> table.

(** The message of the panic of [strings.Repeat]. *)
Definition negativeRepeat : string := "strings: negative Repeat count".

(** The outcome [o] of a run that can only panic in [strings.Repeat]: it
    returns when [P] holds and panics when it does not. *)
Definition returns_iff (P : Prop) (o : Outcome unit) : Prop :=
  (P ∧ o = Returns ()) ∨ (¬ P ∧ o = Panics negativeRepeat).

(** All the commands of all the plugins, plugin after plugin. *)
Definition allPluginCommands (plugins : list (string * Plugin.t))
    : list PluginCommand.t :=
  plugins ≫= λ entry, Plugin.Commands entry.2.

(** The [NAME=DEFAULT] token of an environment variable. *)
Definition envVarToken (envVar : EnvironmentVariable.t) : string :=
  EnvironmentVariable.Name envVar +:+ "=" +:+
  EnvironmentVariable.DefaultValue envVar.

(** ** Runs: how the monad unfolds *)

Lemma Go_bind_eq {A B} (m : Go A) (f : A → Go B) :
  m ≫= f = match outcome m with
            | Returns a => (calls m ++ calls (f a), outcome (f a))
            | Panics msg => (calls m, Panics msg)
            end.
Proof. done. Qed.

Lemma bind_Returns {A B} (m : Go A) (f : A → Go B) (a : A) :
  outcome m = Returns a →
  m ≫= f = (calls m ++ calls (f a), outcome (f a)).
Proof. intros Hm. rewrite Go_bind_eq. by rewrite Hm. Qed.

Lemma bind_call {B} (c : Call) (k : Go B) :
  (call c;; k) = (c :: calls k, outcome k).
Proof. done. Qed.

Lemma bind_when {B} (P : Prop) `{Decision P} (m : Go unit) (lines : list Call)
    (k : Go B) :
  m = (lines, Returns ()) →
  ((if decide P then m else mret ());; k) =
    ((if decide P then lines else []) ++ calls k, outcome k).
Proof. intros ->. by destruct (decide P). Qed.

(** A loop whose body always returns: the calls of the iterations, one after
    the other. *)
Lemma for_range_calls {A} (l : list A) (body : A → Go unit)
    (trace : A → list Call) :
  (∀ x, x ∈ l → body x = (trace x, Returns ())) →
  for_range l body = (l ≫= trace, Returns ()).
Proof.
  induction l as [|x l IH]; intros Hbody; [done|].
  cbn [for_range]. rewrite (Hbody x) by left.
  rewrite Go_bind_eq. cbn [outcome calls fst snd].
  by rewrite IH by (intros; apply Hbody; by right).
Qed.

Lemma for_range_Returns {A} (l : list A) (body : A → Go unit) :
  (∀ x, x ∈ l → outcome (body x) = Returns ()) →
  for_range l body = (l ≫= λ x, calls (body x), Returns ()).
Proof.
  intros Hbody. apply for_range_calls. intros x Hx.
  specialize (Hbody x Hx). destruct (body x) as [trace result].
  cbn in *. by subst.
Qed.

Lemma for_range_lines {A} (l : list A) (body : A → Go unit) (line : A → Call) :
  (∀ x, x ∈ l → body x = ([line x], Returns ())) →
  for_range l body = (line <$> l, Returns ()).
Proof.
  induction l as [|x l IH]; intros Hbody; [done|].
  cbn [for_range]. rewrite (Hbody x) by left.
  rewrite Go_bind_eq. cbn [outcome calls fst snd].
  by rewrite IH by (intros; apply Hbody; by right).
Qed.

Lemma filter_Forall_id {A} (P : A → bool) (l : list A) :
  Forall (λ x, P x = true) l → filter P l = l.
Proof.
  induction 1 as [|x l Hx _ IH]; [done|].
  rewrite filter_cons, decide_True by (by rewrite Hx). by rewrite IH.
Qed.

Lemma output_cons_other {A} (c : Call) (l : list Call) (o : Outcome A) :
  is_UI_call c = false → output (c :: l, o) = output (l, o).
Proof.
  intros Hc. unfold output, calls. cbn [fst].
  rewrite filter_cons, decide_False; [done|]. rewrite Hc. intros [].
Qed.

Lemma getSortedPluginCommands_Returns `{sort_pkg} (cmd : HelpCommand.t) :
  ∃ pluginCommands,
    getSortedPluginCommands cmd = ([Config_Plugins], Returns pluginCommands).
Proof. by eexists. Qed.

(** ** The three-column table of plugin commands *)

Lemma ceil_third_bounds (n : nat) : (n ≤ 3 * ceil_third n < n + 3)%nat.
Proof.
  unfold ceil_third, Qround.Qceiling, Qround.Qfloor, QArith_base.Qopp.
  cbn [QArith_base.Qnum QArith_base.Qden].
  assert (Hdiv := Z.div_mod (- Z.of_nat n) 3 ltac:(lia)).
  assert (Hmod := Z.mod_pos_bound (- Z.of_nat n) 3 ltac:(lia)).
  lia.
Qed.

Lemma pluginCommandsTable_length (pluginCommands : list PluginCommand.t) :
  length (pluginCommandsTable pluginCommands)
  = ceil_third (length pluginCommands).
Proof. unfold pluginCommandsTable. by rewrite length_fmap, length_seq. Qed.

Lemma pluginCommandsTable_cell (pluginCommands : list PluginCommand.t) (i j : nat) :
  (i < ceil_third (length pluginCommands))%nat → (j < 3)%nat →
  cell (pluginCommandsTable pluginCommands) i j =
    Some (default ""
            ((PluginCommand.Name <$> pluginCommands)
               !! (i + j * ceil_third (length pluginCommands))%nat)).
Proof.
  intros Hi Hj. unfold cell, pluginCommandsTable.
  rewrite list_lookup_fmap, lookup_seq_lt by done.
  cbn [fmap option_fmap option_map mbind option_bind].
  rewrite list_lookup_fmap, lookup_seq_lt by done. cbn.
  f_equal. rewrite list_lookup_fmap.
  case_decide as Hlt.
  - by destruct (pluginCommands !! _).
  - rewrite lookup_ge_None_2; [done | lia].
Qed.

(** Column-major numbering: below [3 * rows], an index is [i + j * rows]
    for exactly one row [i] and column [j]. *)
Lemma column_major_index (rows N k : nat) :
  (N ≤ 3 * rows)%nat → (k < N)%nat →
  ∃ i j : nat,
    (i < rows ∧ j < 3 ∧ i + j * rows = k)%nat ∧
    ∀ i' j' : nat, (i' < rows)%nat → (j' < 3)%nat → (i' + j' * rows = k)%nat →
                   i' = i ∧ j' = j.
Proof.
  intros HN Hk. assert (rows ≠ 0)%nat as Hrows by lia.
  exists (k `mod` rows)%nat, (k `div` rows)%nat. split.
  - split; [by apply Nat.mod_upper_bound|]. split.
    + apply Nat.Div0.div_lt_upper_bound. lia.
    + pose proof (Nat.div_mod_eq k rows). lia.
  - intros i' j' Hi' _ Hsum. split.
    + apply (Nat.mod_unique k rows j' i'); lia.
    + apply (Nat.div_unique k rows j' i'); lia.
Qed.

Lemma displayCommonCommands_plugin_block `{sort_pkg} `{internal_pkg}
    (cmd : HelpCommand.t) :
  ∃ pre post pluginCommands,
    outcome (getSortedPluginCommands cmd) = Returns pluginCommands
    ∧ outcome (displayCommonCommands cmd) = Returns ()
    ∧ calls (displayCommonCommands cmd) =
        pre ++ [UI_DisplayHeader "Commands offered by installed plugins:";
                UI_DisplayTable commonCommandsIndent
                  (pluginCommandsTable pluginCommands) 4] ++ post.
Proof.
  destruct (getSortedPluginCommands_Returns cmd) as [pcs Hpcs].
  unfold displayCommonCommands, CommandInfos.
  cbn -[for_range getSortedPluginCommands pluginCommandsTable].
  rewrite for_range_Returns by done.
  rewrite Hpcs.
  cbn -[pluginCommandsTable].
  eexists (_ :: _ :: _ :: _ :: _ ++ [Config_Plugins]), _, pcs.
  split; [done|]. split; [done|].
  cbn -[pluginCommandsTable]. by rewrite <- app_assoc.
Qed.

(** C1: for every sequence of N plugin commands the three-column table of
    the common-commands summary has ceil(N/3) rows of 3 cells each; cell
    [i][j] is the name at index i + j*rows when that index is below N and
    the empty string otherwise; every index below N is the index of exactly
    one cell (column-major fill); for the five names a..e the rows are
    [a,c,e] and [b,d,""]; and this table is the one [displayCommonCommands]
    displays under "Commands offered by installed plugins:". *)
Theorem C1_three_column_wrap_layout :
  (∀ pluginCommands : list PluginCommand.t,
     let names := PluginCommand.Name <$> pluginCommands in
     let N := length names in
     let table := pluginCommandsTable pluginCommands in
     let rows := length table in
     (N ≤ 3 * rows < N + 3)%nat
     ∧ Forall (λ row, length row = 3%nat) table
     ∧ (∀ i j : nat, (i < rows)%nat → (j < 3)%nat →
          ((i + j * rows < N)%nat → cell table i j = names !! (i + j * rows)%nat)
          ∧ ((N ≤ i + j * rows)%nat → cell table i j = Some ""))
     ∧ (∀ k : nat, (k < N)%nat →
          ∃ i j : nat,
            ((i < rows)%nat ∧ (j < 3)%nat ∧ (i + j * rows)%nat = k
             ∧ cell table i j = names !! k)
            ∧ ∀ i' j' : nat, (i' < rows)%nat → (j' < 3)%nat →
                (i' + j' * rows)%nat = k → i' = i ∧ j' = j))
  ∧ pluginCommandsTable (plugin_command <$> ["a"; "b"; "c"; "d"; "e"])
    = [["a"; "c"; "e"]; ["b"; "d"; ""]]
  ∧ (∀ (sort : sort_pkg) (internal : internal_pkg) (cmd : HelpCommand.t),
       ∃ pre post pluginCommands,
         outcome (getSortedPluginCommands cmd) = Returns pluginCommands
         ∧ outcome (displayCommonCommands cmd) = Returns ()
         ∧ calls (displayCommonCommands cmd) =
             pre ++ [UI_DisplayHeader "Commands offered by installed plugins:";
                     UI_DisplayTable commonCommandsIndent
                       (pluginCommandsTable pluginCommands) 4] ++ post).
Proof.
  split; [|split; [done|intros; apply displayCommonCommands_plugin_block]].
  intros pcs names N table rows.
  assert (rows = ceil_third (length pcs)) as Hrows
    by apply pluginCommandsTable_length.
  assert (N = length pcs) as HN by apply length_fmap.
  pose proof (ceil_third_bounds (length pcs)) as Hceil.
  assert (∀ i j : nat, (i < rows)%nat → (j < 3)%nat →
            cell table i j = Some (default "" (names !! (i + j * rows)%nat)))
    as Hcell.
  { intros i j Hi Hj. rewrite Hrows in Hi |- *.
    by apply pluginCommandsTable_cell. }
  split; [lia|]. split; [|split].
  - apply Forall_forall. intros row Hrow.
    apply list_elem_of_fmap in Hrow as (i & -> & _).
    by rewrite length_fmap, length_seq.
  - intros i j Hi Hj. rewrite Hcell by done. split; intros Hidx.
    + destruct (lookup_lt_is_Some_2 names (i + j * rows)%nat Hidx) as [x ->].
      done.
    + by rewrite lookup_ge_None_2.
  - intros k Hk.
    destruct (column_major_index rows N k ltac:(lia) Hk)
      as (i & j & (Hi & Hj & Hsum) & Huniq).
    exists i, j. split; [|done].
    repeat split; try done.
    rewrite Hcell, Hsum by done.
    by destruct (lookup_lt_is_Some_2 names k Hk) as [x ->].
Qed.


(** ** The byte-wise order, and the order [sort.Sort] sorts into *)

Lemma not_ltb_bytewise_le (a b : string) :
  String.ltb b a = false ↔ bytewise_le a b.
Proof.
  unfold bytewise_le, String.le, String.ltb, String.leb.
  rewrite (String.compare_antisym a b).
  destruct (String.compare b a); cbn; split; (done || congruence).
Qed.

Lemma Alphabetic_sort_le (a b : string) : sort_le a b ↔ bytewise_le a b.
Proof. apply not_ltb_bytewise_le. Qed.

Lemma PluginCommands_sort_le (a b : PluginCommand.t) :
  sort_le a b ↔ bytewise_le (PluginCommand.Name a) (PluginCommand.Name b).
Proof. apply not_ltb_bytewise_le. Qed.

#[export] Instance Alphabetic_sort_le_trans : Transitive (@sort_le string _).
Proof. intros a b c. rewrite !Alphabetic_sort_le. apply transitivity. Qed.

#[export] Instance Alphabetic_sort_le_total : Total (@sort_le string _).
Proof. intros a b. rewrite !Alphabetic_sort_le. apply total, _. Qed.

#[export] Instance Alphabetic_sort_le_antisym : AntiSymm (=) (@sort_le string _).
Proof. intros a b. rewrite !Alphabetic_sort_le. apply anti_symm, _. Qed.

#[export] Instance PluginCommands_sort_le_trans :
  Transitive (@sort_le PluginCommand.t _).
Proof. intros a b c. rewrite !PluginCommands_sort_le. apply transitivity. Qed.

#[export] Instance PluginCommands_sort_le_total :
  Total (@sort_le PluginCommand.t _).
Proof. intros a b. rewrite !PluginCommands_sort_le. apply total, _. Qed.

Lemma StronglySorted_weaken {A} (R1 R2 : relation A) (l : list A) :
  (∀ a b, R1 a b → R2 a b) → StronglySorted R1 l → StronglySorted R2 l.
Proof.
  intros HR. induction 1 as [|a l _ IH Hall]; constructor; [done|].
  eapply Forall_impl; [exact Hall|]. apply HR.
Qed.

(** Merge sort keeps the contract of [sort.Sort]. *)
Lemma merge_sort_contract : @sort_contract merge_sort_pkg.
Proof.
  split.
  - intros A I data. apply merge_sort_Permutation.
  - intros A I data Htrans Htotal. by apply StronglySorted_merge_sort.
Qed.

(** ** The sorted list of plugin commands *)

Lemma foldl_snoc_fst {A B} (l : list (A * B)) (acc : list A) :
  foldl (λ names entry, names ++ [entry.1]) acc l = acc ++ l.*1.
Proof.
  revert acc. induction l as [|e l IH]; intros acc; cbn.
  - by rewrite app_nil_r.
  - rewrite IH. by rewrite <- app_assoc.
Qed.

Lemma foldl_app_bind {A B} (f : A → list B) (l : list A) (acc : list B) :
  foldl (λ out x, out ++ f x) acc l = acc ++ (l ≫= f).
Proof.
  revert acc. induction l as [|x l IH]; intros acc; cbn.
  - by rewrite app_nil_r.
  - rewrite IH. by rewrite <- app_assoc.
Qed.

Lemma map_index_elem_of (plugins : list (string * Plugin.t)) name plugin :
  NoDup plugins.*1 → (name, plugin) ∈ plugins → map_index plugins name = plugin.
Proof.
  induction plugins as [|[k v] plugins IH]; intros Hnodup Hin.
  - by apply elem_of_nil in Hin.
  - apply NoDup_cons in Hnodup as [Hk Hnodup]. cbn.
    apply elem_of_cons in Hin as [[= <- <-] | Hin].
    + by rewrite decide_True.
    + rewrite decide_False; [by apply IH|].
      intros ->. apply Hk. apply list_elem_of_fmap. by exists (name, plugin).
Qed.

Lemma map_index_not_elem_of (plugins : list (string * Plugin.t)) name :
  name ∉ plugins.*1 → map_index plugins name = Plugin.zero.
Proof.
  induction plugins as [|[k v] plugins IH]; [done|]. cbn.
  rewrite not_elem_of_cons. intros [Hne Hnotin].
  by rewrite decide_False; [apply IH|].
Qed.

(** The lookup [plugins[name]] does not depend on the order in which the
    entries of the map are listed. *)
Lemma map_index_Permutation (plugins plugins' : list (string * Plugin.t)) name :
  NoDup plugins.*1 → plugins ≡ₚ plugins' →
  map_index plugins name = map_index plugins' name.
Proof.
  intros Hnodup Hperm.
  assert (NoDup plugins'.*1) as Hnodup' by by rewrite <- Hperm.
  destruct (decide (name ∈ plugins.*1)) as [Hin | Hnotin].
  - apply list_elem_of_fmap in Hin as ([k v] & -> & Hin). cbn.
    rewrite (map_index_elem_of plugins k v) by done.
    symmetry. apply map_index_elem_of; [done|]. by rewrite <- Hperm.
  - rewrite !map_index_not_elem_of; [done| |done]. by rewrite <- Hperm.
Qed.

Section SortedPluginCommands.
Context `{sort_contract}.

Lemma getSortedPluginCommands_eq (cmd : HelpCommand.t) :
  getSortedPluginCommands cmd =
    ([Config_Plugins],
     Returns (sort_Sort (Config.Plugins (HelpCommand.Config cmd)).*1
                ≫= λ pluginName,
                  sort_Sort
                    (Plugin.Commands
                       (map_index (Config.Plugins (HelpCommand.Config cmd))
                                  pluginName)))).
Proof.
  unfold getSortedPluginCommands. cbn.
  by rewrite foldl_app_bind, foldl_snoc_fst.
Qed.

(** C2: for a plugin map with pairwise distinct keys, whatever [sort.Sort]
    the library provides, [getSortedPluginCommands] returns the
    concatenation, over the plugin names in ascending byte-wise order, of
    each plugin's commands in ascending order of command name; the result
    is the same for every order in which the map lists its entries. *)
Theorem C2_sorted_plugin_commands (cmd : HelpCommand.t) :
  let plugins := Config.Plugins (HelpCommand.Config cmd) in
  NoDup plugins.*1 →
  ∃ names : list string,
    names ≡ₚ plugins.*1
    ∧ StronglySorted bytewise_le names
    ∧ outcome (getSortedPluginCommands cmd) =
        Returns (names ≫= λ pluginName,
                   sort_Sort (Plugin.Commands (map_index plugins pluginName)))
    ∧ (∀ pluginName plugin, (pluginName, plugin) ∈ plugins →
         let block := sort_Sort (Plugin.Commands (map_index plugins pluginName)) in
         block ≡ₚ Plugin.Commands plugin
         ∧ StronglySorted
             (λ a b, bytewise_le (PluginCommand.Name a) (PluginCommand.Name b))
             block)
    ∧ (∀ cmd' : HelpCommand.t,
         Config.Plugins (HelpCommand.Config cmd') ≡ₚ plugins →
         getSortedPluginCommands cmd' = getSortedPluginCommands cmd).
Proof.
  intros plugins Hnodup.
  exists (sort_Sort plugins.*1).
  split; [apply sort_Sort_Permutation|].
  split.
  { eapply StronglySorted_weaken; [|apply sort_Sort_Sorted; apply _].
    intros a b. apply Alphabetic_sort_le. }
  split; [by rewrite getSortedPluginCommands_eq|].
  split.
  - intros pluginName plugin Hin block. subst block.
    rewrite (map_index_elem_of plugins pluginName plugin) by done.
    split; [apply sort_Sort_Permutation|].
    eapply StronglySorted_weaken; [|apply sort_Sort_Sorted; apply _].
    intros a b. apply PluginCommands_sort_le.
  - intros cmd' Hperm. rewrite !getSortedPluginCommands_eq.
    fold plugins. set (plugins' := Config.Plugins (HelpCommand.Config cmd')) in *.
    assert (sort_Sort plugins'.*1 = sort_Sort plugins.*1) as ->.
    { apply (StronglySorted_unique sort_le).
      - apply sort_Sort_Sorted; apply _.
      - apply sort_Sort_Sorted; apply _.
      - by rewrite !sort_Sort_Permutation, Hperm. }
    do 2 f_equal. apply list_bind_ext; [|done]. intros pluginName.
    by rewrite (map_index_Permutation plugins plugins' pluginName).
Qed.
End SortedPluginCommands.


(** ** The detail page of one command *)

Lemma max_len_cons (name : string) (names : list string) :
  max_len (name :: names) = Z.max (len name) (max_len names).
Proof. done. Qed.


Lemma max_len_ge (names : list string) (name : string) :
  name ∈ names → len name ≤ max_len names.
Proof.
  induction names as [|n names IH]; intros Hin; [by apply elem_of_nil in Hin|].
  rewrite max_len_cons.
  apply elem_of_cons in Hin as [-> | Hin]; [lia|]. specialize (IH Hin). lia.
Qed.


Section DetailPage.
Context `{internal_pkg}.
Implicit Type cmd : HelpCommand.t.

(** The padding of a flag is never negative: the width is that of the
    longest flag name, plus 6. *)
Lemma displayFlag_Returns cmd (flags : list CommandFlag.t) (flag : CommandFlag.t) :
  flag ∈ flags →
  displayFlag cmd (LongestFlagWidth flags + 6) flag =
    ([flagLine cmd (LongestFlagWidth flags + 6) flag], Returns ()).
Proof.
  intros Hin. unfold displayFlag, strings_Repeat.
  assert (len (flagName flag) ≤ LongestFlagWidth flags) as Hle.
  { apply max_len_ge. apply list_elem_of_fmap. by exists flag. }
  rewrite decide_False by lia. done.
Qed.

Lemma for_range_displayFlag cmd (flags : list CommandFlag.t) :
  for_range flags (displayFlag cmd (LongestFlagWidth flags + 6)) =
    (flagLine cmd (LongestFlagWidth flags + 6) <$> flags, Returns ()).
Proof. apply for_range_lines. intros flag. apply displayFlag_Returns. Qed.

Lemma for_range_displayEnvVar cmd (env : list EnvironmentVariable.t) :
  for_range env (displayEnvVar cmd) = (envVarLine cmd <$> env, Returns ()).
Proof. by apply for_range_lines. Qed.

(** The page, with the tests as the code writes them. *)
Lemma displayCommandInfo_eq cmd (cmdInfo : CommandInfo.t) :
  displayCommandInfo cmd cmdInfo =
    (nameAndUsage cmd cmdInfo
     ++ (if decide (CommandInfo.Alias cmdInfo ≠ "")
         then detailSection "ALIAS:" [aliasLine cmdInfo] else [])
     ++ (if decide (length (CommandInfo.Flags cmdInfo) ≠ 0%nat)
         then detailSection "OPTIONS:"
                (flagLine cmd (LongestFlagWidth (CommandInfo.Flags cmdInfo) + 6)
                   <$> CommandInfo.Flags cmdInfo)
         else [])
     ++ (if decide (length (CommandInfo.Environment cmdInfo) ≠ 0%nat)
         then detailSection "ENVIRONMENT:"
                (envVarLine cmd <$> CommandInfo.Environment cmdInfo)
         else [])
     ++ (if decide (0 < length (CommandInfo.RelatedCommands cmdInfo))%nat
         then detailSection "SEE ALSO:" [seeAlsoLine cmdInfo] else []),
     Returns None).
Proof.
  unfold displayCommandInfo.
  rewrite for_range_displayFlag, for_range_displayEnvVar.
  repeat (rewrite bind_call; cbn [calls outcome fst snd]).
  rewrite (bind_when _ _ (detailSection "ALIAS:" _)) by done.
  rewrite (bind_when _ _ (detailSection "OPTIONS:" _)) by done.
  rewrite (bind_when _ _ (detailSection "ENVIRONMENT:" _)) by done.
  rewrite (bind_when _ _ (detailSection "SEE ALSO:" _)) by done.
  cbn [calls outcome fst snd mret Go_mret Go_ret].
  by rewrite app_nil_r.
Qed.

Lemma displayCommandInfo_UI_calls cmd (cmdInfo : CommandInfo.t) :
  Forall (λ c, is_UI_call c = true) (calls (displayCommandInfo cmd cmdInfo)).
Proof.
  rewrite displayCommandInfo_eq. cbn [calls fst].
  repeat apply Forall_app_2; repeat case_decide;
    unfold nameAndUsage, detailSection;
    repeat first [apply Forall_nil_2 | apply Forall_cons_2; [done|]];
    by apply Forall_fmap, Forall_true.
Qed.

Lemma findPlugin_eq cmd :
  ∃ result, findPlugin cmd = ([Config_Plugins], Returns result).
Proof. by eexists. Qed.

Lemma findPlugin_absent cmd :
  no_plugin_command (Config.Plugins (HelpCommand.Config cmd)) (CommandName cmd) →
  findPlugin cmd = ([Config_Plugins], Returns (CommandInfo.zero, false)).
Proof.
  unfold no_plugin_command, findPlugin, Plugins. intros Habsent.
  cbn. do 2 f_equal.
  induction Habsent as [|[pluginName plugin] plugins Hplugin _ IH]; [done|].
  cbn in *. rewrite IH. clear IH.
  induction (Plugin.Commands plugin) as [|command commands IH]; [done|].
  apply Forall_cons in Hplugin as [Hcommand Hplugin].
  cbn. rewrite decide_False by done. by apply IH.
Qed.

Lemma displayCommand_builtin cmd (builtin : CommandInfo.t) :
  builtin_lookup cmd = (builtin, None) →
  displayCommand cmd =
    (Actor_CommandInfoByName (CommandName cmd)
       :: calls (displayCommandInfo cmd builtin), Returns None).
Proof.
  intros Hlookup. unfold displayCommand, CommandInfoByName.
  fold (builtin_lookup cmd). rewrite Hlookup. cbn -[displayCommandInfo].
  by rewrite displayCommandInfo_eq.
Qed.

(** An error of another kind: the run ends after the lookup, and what it
    returns is the [err] of the type assertion, not the actor's. *)
Lemma displayCommand_error cmd (info : CommandInfo.t) (err : error) :
  builtin_lookup cmd = (info, Some err) → (∀ name, err ≠ ErrorInvalidCommand name) →
  displayCommand cmd =
    ([Actor_CommandInfoByName (CommandName cmd)],
     Returns (Some (ErrorInvalidCommand ""))).
Proof.
  intros Hlookup Hkind. unfold displayCommand, CommandInfoByName.
  fold (builtin_lookup cmd). rewrite Hlookup.
  destruct err as [name|msg]; [by destruct (Hkind name)|done].
Qed.

Lemma displayCommand_invalid cmd (info : CommandInfo.t) (name : string) :
  builtin_lookup cmd = (info, Some (ErrorInvalidCommand name)) →
  ∃ pluginInfo found,
    outcome (findPlugin cmd) = Returns (pluginInfo, found)
    ∧ displayCommand cmd =
        if found
        then (Actor_CommandInfoByName (CommandName cmd) :: Config_Plugins
                :: calls (displayCommandInfo cmd pluginInfo), Returns None)
        else ([Actor_CommandInfoByName (CommandName cmd); Config_Plugins],
              Returns (Some (ErrorInvalidCommand name))).
Proof.
  intros Hlookup. unfold displayCommand, CommandInfoByName.
  fold (builtin_lookup cmd). rewrite Hlookup.
  destruct (findPlugin_eq cmd) as [[pluginInfo found] Hfind].
  exists pluginInfo, found. rewrite Hfind. split; [done|].
  destruct found; cbn -[displayCommandInfo]; [|done].
  by rewrite displayCommandInfo_eq.
Qed.

(** Once the command is resolved, the page is all the run displays. *)
Lemma displayCommand_resolved cmd (cmdInfo : CommandInfo.t) :
  resolves cmd cmdInfo →
  outcome (displayCommand cmd) = Returns None
  ∧ output (displayCommand cmd) = calls (displayCommandInfo cmd cmdInfo).
Proof.
  unfold resolves.
  pose proof (displayCommandInfo_UI_calls cmd cmdInfo) as HUI.
  destruct (builtin_lookup cmd) as [info [[name|msg]|]] eqn:Hlookup; [|done|].
  - intros Hfound.
    destruct (displayCommand_invalid cmd info name Hlookup)
      as (pluginInfo & found & Hfind & ->).
    rewrite Hfound in Hfind. injection Hfind as <- <-.
    split; [done|]. rewrite !output_cons_other by done.
    by apply filter_Forall_id.
  - intros ->. rewrite (displayCommand_builtin cmd info Hlookup).
    split; [done|]. rewrite !output_cons_other by done.
    by apply filter_Forall_id.
Qed.

(** When the command is not resolved nothing is displayed. *)
Lemma displayCommand_unresolved cmd :
  (∀ cmdInfo, ¬ resolves cmd cmdInfo) → output (displayCommand cmd) = [].
Proof.
  intros Hnone. unfold resolves in Hnone.
  destruct (builtin_lookup cmd) as [info [[name|msg]|]] eqn:Hlookup.
  - destruct (displayCommand_invalid cmd info name Hlookup)
      as (pluginInfo & [|] & Hfind & ->); [|done].
    by destruct (Hnone pluginInfo).
  - by rewrite (displayCommand_error cmd info _ Hlookup).
  - by destruct (Hnone info).
Qed.

(** [displayCommand] never asks the actor for the whole catalog. *)
Lemma displayCommand_no_CommandInfos cmd :
  Actor_CommandInfos ∉ calls (displayCommand cmd).
Proof.
  assert (∀ cmdInfo, Actor_CommandInfos ∉ calls (displayCommandInfo cmd cmdInfo))
    as Hpage.
  { intros cmdInfo Hin.
    pose proof (displayCommandInfo_UI_calls cmd cmdInfo) as HUI.
    rewrite Forall_forall in HUI. by apply HUI in Hin. }
  destruct (builtin_lookup cmd) as [info [[name|msg]|]] eqn:Hlookup.
  - destruct (displayCommand_invalid cmd info name Hlookup)
      as (pluginInfo & [|] & _ & ->); cbn [calls fst];
      rewrite !elem_of_cons.
    + intros [[=] | [[=] | Hin]]. by apply (Hpage pluginInfo).
    + rewrite elem_of_nil. by intros [[=] | [[=] | []]].
  - rewrite (displayCommand_error cmd info _ Hlookup) by done.
    cbn [calls fst]. rewrite elem_of_cons, elem_of_nil. by intros [[=] | []].
  - rewrite (displayCommand_builtin cmd info Hlookup). cbn [calls fst].
    rewrite elem_of_cons. intros [[=] | Hin]. by apply (Hpage info).
Qed.

Lemma heading_elem_of_section (h heading : string) (lines : list Call)
    (P : Prop) `{Decision P} :
  UI_DisplayText h [] ∉ lines →
  UI_DisplayText h [] ∈ (if decide P then detailSection heading lines else [])
  ↔ P ∧ h = heading.
Proof.
  intros Hlines. case_decide; [|rewrite elem_of_nil; tauto].
  unfold detailSection. rewrite !elem_of_cons. split.
  - intros [[=] | [[= ->] | ?]]; tauto.
  - intros [_ ->]. right. by left.
Qed.

(** Where a heading can occur on the page: only at the head of its own
    section. *)
Lemma heading_elem_of_page cmd (cmdInfo : CommandInfo.t) (h : string)
    (P1 P2 P3 P4 : Prop) `{Decision P1, Decision P2, Decision P3, Decision P4}
    (Q : Prop) :
  h ≠ "NAME:" → h ≠ "USAGE:" → String.prefix " " h = false →
  ((P1 ∧ h = "ALIAS:") ∨ (P2 ∧ h = "OPTIONS:") ∨ (P3 ∧ h = "ENVIRONMENT:")
   ∨ (P4 ∧ h = "SEE ALSO:") ↔ Q) →
  UI_DisplayText h [] ∈
    nameAndUsage cmd cmdInfo
    ++ (if decide P1 then detailSection "ALIAS:" [aliasLine cmdInfo] else [])
    ++ (if decide P2
        then detailSection "OPTIONS:"
               (flagLine cmd (LongestFlagWidth (CommandInfo.Flags cmdInfo) + 6)
                  <$> CommandInfo.Flags cmdInfo)
        else [])
    ++ (if decide P3
        then detailSection "ENVIRONMENT:"
               (envVarLine cmd <$> CommandInfo.Environment cmdInfo)
        else [])
    ++ (if decide P4 then detailSection "SEE ALSO:" [seeAlsoLine cmdInfo] else [])
  ↔ Q.
Proof.
  intros Hname Husage Hspace <-.
  rewrite !elem_of_app.
  rewrite !heading_elem_of_section.
  - unfold nameAndUsage. rewrite !elem_of_cons, elem_of_nil.
    split; [|tauto]. intros [Hin|?]; [|tauto].
    destruct Hin as [[=]|[[=]|[[=]|[[=]|[[=]|[]]]]]]; congruence.
  - rewrite elem_of_cons, elem_of_nil. intros [[= ->]|[]]. done.
  - intros (x & [=] & _)%list_elem_of_fmap.
  - intros (x & [=] & _)%list_elem_of_fmap.
  - rewrite elem_of_cons, elem_of_nil. by intros [[=]|[]].
Qed.

(** C8: on the detail page of a resolved command, after NAME and USAGE come
    the sections ALIAS, OPTIONS, ENVIRONMENT and SEE ALSO in that order;
    each is there exactly when its own field (alias, flags, environment,
    related commands) is not empty, whatever the other fields hold; a
    section that is there is a blank line, its heading and its lines, and
    one that is not contributes nothing. *)
Theorem C8_detail_sections cmd (cmdInfo : CommandInfo.t) :
  resolves cmd cmdInfo →
  ∃ alias options environment seeAlso : list Call,
    output (displayCommand cmd) =
      nameAndUsage cmd cmdInfo ++ alias ++ options ++ environment ++ seeAlso
    ∧ alias =
        (if decide (CommandInfo.Alias cmdInfo = "") then []
         else detailSection "ALIAS:" [aliasLine cmdInfo])
    ∧ options =
        (if decide (CommandInfo.Flags cmdInfo = []) then []
         else detailSection "OPTIONS:"
                (flagLine cmd (LongestFlagWidth (CommandInfo.Flags cmdInfo) + 6)
                   <$> CommandInfo.Flags cmdInfo))
    ∧ environment =
        (if decide (CommandInfo.Environment cmdInfo = []) then []
         else detailSection "ENVIRONMENT:"
                (envVarLine cmd <$> CommandInfo.Environment cmdInfo))
    ∧ seeAlso =
        (if decide (CommandInfo.RelatedCommands cmdInfo = []) then []
         else detailSection "SEE ALSO:" [seeAlsoLine cmdInfo])
    ∧ (UI_DisplayText "ALIAS:" [] ∈ output (displayCommand cmd)
       ↔ CommandInfo.Alias cmdInfo ≠ "")
    ∧ (UI_DisplayText "OPTIONS:" [] ∈ output (displayCommand cmd)
       ↔ CommandInfo.Flags cmdInfo ≠ [])
    ∧ (UI_DisplayText "ENVIRONMENT:" [] ∈ output (displayCommand cmd)
       ↔ CommandInfo.Environment cmdInfo ≠ [])
    ∧ (UI_DisplayText "SEE ALSO:" [] ∈ output (displayCommand cmd)
       ↔ CommandInfo.RelatedCommands cmdInfo ≠ []).
Proof.
  intros Hresolves.
  destruct (displayCommand_resolved cmd cmdInfo Hresolves) as [_ ->].
  rewrite displayCommandInfo_eq. cbn [calls fst].
  eexists _, _, _, _. split; [reflexivity|].
  assert (∀ P Q (X : list Call) `{Decision P, Decision Q},
            (P ↔ ¬ Q) →
            (if decide P then X else []) = (if decide Q then [] else X)) as Hif.
  { intros P Q X ?? HPQ. repeat case_decide; tauto. }
  assert (∀ {A} (l : list A), length l ≠ 0%nat ↔ l ≠ []) as Hlen
    by (by intros A [|??]).
  assert (∀ {A} (l : list A), (0 < length l)%nat ↔ l ≠ []) as Hpos
    by (intros A [|??]; cbn; split; (done || lia)).
  split; [by apply Hif|]. split; [by apply Hif|].
  split; [by apply Hif|]. split; [by apply Hif|].
  rewrite <- Hlen, <- Hlen, <- Hpos.
  repeat split; apply heading_elem_of_page; cbn; intuition congruence.
Qed.

(** C3: when the actor has the command name among the built-ins, the page
    displayed is the built-in's, the plugin map is never asked for, and the
    run is the same whatever the plugins are (so also when one of them has a
    command of that name); in general the plugin map is asked for exactly
    when the actor answers with the not-found error. *)
Theorem C3_builtin_not_shadowed cmd :
  (∀ builtin : CommandInfo.t,
     builtin_lookup cmd = (builtin, None) →
     outcome (displayCommand cmd) = Returns None
     ∧ output (displayCommand cmd) = calls (displayCommandInfo cmd builtin)
     ∧ nameLine cmd builtin ∈ output (displayCommand cmd)
     ∧ (Config_Plugins ∉ calls (displayCommand cmd))
     ∧ ∀ plugins, displayCommand (with_Plugins plugins cmd) = displayCommand cmd)
  ∧ (Config_Plugins ∈ calls (displayCommand cmd)
     ↔ ∃ info name, builtin_lookup cmd = (info, Some (ErrorInvalidCommand name))).
Proof.
  assert (∀ cmdInfo, Config_Plugins ∉ calls (displayCommandInfo cmd cmdInfo))
    as Hpage.
  { intros cmdInfo Hin.
    pose proof (displayCommandInfo_UI_calls cmd cmdInfo) as HUI.
    rewrite Forall_forall in HUI. by apply HUI in Hin. }
  split.
  - intros builtin Hlookup.
    assert (resolves cmd builtin) as Hresolves
      by (unfold resolves; by rewrite Hlookup).
    destruct (displayCommand_resolved cmd builtin Hresolves) as [Hout Hpage'].
    split; [done|]. split; [done|]. split.
    { rewrite Hpage', displayCommandInfo_eq. cbn [calls fst].
      apply elem_of_app. left. unfold nameAndUsage. right. left. }
    split.
    { rewrite (displayCommand_builtin cmd builtin Hlookup). cbn [calls fst].
      rewrite elem_of_cons. intros [[=] | Hin]. by apply (Hpage builtin). }
    intros plugins.
    rewrite (displayCommand_builtin cmd builtin Hlookup).
    by rewrite (displayCommand_builtin (with_Plugins plugins cmd) builtin Hlookup).
  - destruct (builtin_lookup cmd) as [info [[name|msg]|]] eqn:Hlookup.
    + destruct (displayCommand_invalid cmd info name Hlookup)
        as (pluginInfo & found & _ & ->).
      split; [by eauto|]. intros _.
      destruct found; cbn [calls fst]; right; left.
    + rewrite (displayCommand_error cmd info _ Hlookup) by done.
      cbn [calls fst]. split; [|by intros (? & ? & [=])].
      rewrite elem_of_cons, elem_of_nil. by intros [[=] | []].
    + rewrite (displayCommand_builtin cmd info Hlookup). cbn [calls fst].
      split; [|by intros (? & ? & [=])].
      rewrite elem_of_cons. intros [[=] | Hin]. by destruct (Hpage info).
Qed.

(** C6: when the actor answers with the not-found error and no plugin has a
    command of that name, [displayCommand] returns that error and displays
    nothing at all: its only calls are the actor lookup and the request for
    the plugin map. *)
Theorem C6_unknown_command cmd (info : CommandInfo.t) (name : string) :
  builtin_lookup cmd = (info, Some (ErrorInvalidCommand name)) →
  no_plugin_command (Config.Plugins (HelpCommand.Config cmd)) (CommandName cmd) →
  outcome (displayCommand cmd) = Returns (Some (ErrorInvalidCommand name))
  ∧ output (displayCommand cmd) = []
  ∧ calls (displayCommand cmd) =
      [Actor_CommandInfoByName (CommandName cmd); Config_Plugins].
Proof.
  intros Hlookup Habsent.
  destruct (displayCommand_invalid cmd info name Hlookup)
    as (pluginInfo & found & Hfind & ->).
  rewrite (findPlugin_absent cmd Habsent) in Hfind.
  injection Hfind as <- <-. done.
Qed.

(** C7, at a failing input: the actor answers the lookup of [broken] with
    an error that is not of the not-found kind.  The plugin map is not asked
    for and nothing is displayed, as the claim says, but the error
    [displayCommand] returns, and [Execute] with it, is not the actor's: it
    is the zero [ErrorInvalidCommand{}], the [err] that the type assertion
    declared. *)
Theorem C7_upstream_error_replaced :
  let cmd := example_cmd example_catalog example_plugins "broken" false in
  builtin_lookup cmd = (CommandInfo.zero, Some (ErrorOther "catalog unreadable"))
  ∧ @displayCommand example_internal cmd =
      ([Actor_CommandInfoByName "broken"],
       Returns (Some (ErrorInvalidCommand "")))
  ∧ outcome (@displayCommand example_internal cmd)
    ≠ Returns (Some (ErrorOther "catalog unreadable"))
  ∧ outcome (@Execute merge_sort_pkg example_internal cmd [])
    = Returns (Some (ErrorInvalidCommand "")).
Proof. repeat split; by vm_compute. Qed.
End DetailPage.

(** ** Dispatch *)

(** C10: with a command name given, whatever the [-a] flag is, [Execute]
    is [displayCommand]: it never asks the actor for the catalog, for a
    command that is resolved it returns nil and what it displays is the
    detail page of that command and nothing else, and for a name that is
    not resolved it displays nothing; the flag is read only on the branch
    of the empty name, inside [displayFullHelp]. *)
Theorem C10_command_name_wins `{sort_pkg} `{internal_pkg}
    (cmd : HelpCommand.t) (args : list string) :
  (CommandName cmd ≠ "" →
   ∀ all : bool,
     Execute (with_AllCommands all cmd) args = displayCommand cmd
     ∧ (Actor_CommandInfos ∉ calls (Execute (with_AllCommands all cmd) args))
     ∧ (∀ cmdInfo : CommandInfo.t, resolves cmd cmdInfo →
          outcome (Execute (with_AllCommands all cmd) args) = Returns None
          ∧ output (Execute (with_AllCommands all cmd) args) =
              nameAndUsage cmd cmdInfo
              ++ (if decide (CommandInfo.Alias cmdInfo ≠ "")
                  then detailSection "ALIAS:" [aliasLine cmdInfo] else [])
              ++ (if decide (length (CommandInfo.Flags cmdInfo) ≠ 0%nat)
                  then detailSection "OPTIONS:"
                         (flagLine cmd
                            (LongestFlagWidth (CommandInfo.Flags cmdInfo) + 6)
                            <$> CommandInfo.Flags cmdInfo)
                  else [])
              ++ (if decide (length (CommandInfo.Environment cmdInfo) ≠ 0%nat)
                  then detailSection "ENVIRONMENT:"
                         (envVarLine cmd <$> CommandInfo.Environment cmdInfo)
                  else [])
              ++ (if decide (0 < length (CommandInfo.RelatedCommands cmdInfo))%nat
                  then detailSection "SEE ALSO:" [seeAlsoLine cmdInfo]
                  else []))
     ∧ ((∀ cmdInfo : CommandInfo.t, ¬ resolves cmd cmdInfo) →
        output (Execute (with_AllCommands all cmd) args) = []))
  ∧ (CommandName cmd = "" →
     Execute cmd args = (displayFullHelp cmd;; mret None)).
Proof.
  split; intros Hname.
  - intros all.
    assert (Execute (with_AllCommands all cmd) args = displayCommand cmd) as ->
      by (unfold Execute; by rewrite decide_False).
    split; [done|]. split; [apply displayCommand_no_CommandInfos|].
    split; [|apply displayCommand_unresolved].
    intros cmdInfo Hresolves.
    destruct (displayCommand_resolved cmd cmdInfo Hresolves) as [-> ->].
    by rewrite displayCommandInfo_eq.
  - unfold Execute. by rewrite decide_True.
Qed.


(** ** The full listing *)

Section LongestName.
Context `{internal_pkg}.





End LongestName.

Section FullListing.
Context `{sort_pkg} `{internal_pkg}.
Implicit Type cmd : HelpCommand.t.



End FullListing.

(** ** The common-commands summary *)

Lemma string_app_nil_r (s : string) : s +:+ "" = s.
Proof.
  induction s as [|c s IH]; [done|].
  change (String c s +:+ "") with (String c (s +:+ "")). by rewrite IH.
Qed.

Lemma commonCommandsRow_eq (cmdInfo : gmap string CommandInfo.t)
    (row : list string) :
  commonCommandsRow cmdInfo row =
    omap (λ command, commonCommandsEntry <$> cmdInfo !! command) row.
Proof.
  unfold commonCommandsRow.
  assert (∀ acc,
            foldl (λ finalRow command,
                     match cmdInfo !! command with
                     | Some info =>
                         let separator :=
                           if decide (0 < len (CommandInfo.Alias info))
                           then "," else "" in
                         finalRow ++
                           [CommandInfo.Name info +:+ separator
                              +:+ CommandInfo.Alias info]
                     | None => finalRow
                     end) acc row
            = acc ++ omap (λ command, commonCommandsEntry <$> cmdInfo !! command)
                          row) as Hgen; [|apply Hgen].
  induction row as [|command row IH]; intros acc.
  - cbn. by rewrite app_nil_r.
  - cbn [foldl]. rewrite IH. clear IH.
    change (omap ?f (command :: row))
      with (match f command with
            | Some y => y :: omap f row
            | None => omap f row
            end).
    cbn beta. destruct (cmdInfo !! command) as [info|]; cbn; [|done].
    rewrite <- app_assoc. do 2 f_equal.
    unfold commonCommandsEntry, len.
    destruct (CommandInfo.Alias info) as [|c alias]; cbn.
    + by rewrite string_app_nil_r.
    + rewrite decide_True by lia. done.
Qed.

Lemma foldl_snoc_fmap {A B} (f : A → B) (l : list A) (acc : list B) :
  foldl (λ table row, table ++ [f row]) acc l = acc ++ (f <$> l).
Proof.
  revert acc. induction l as [|x l IH]; intros acc; cbn.
  - by rewrite app_nil_r.
  - rewrite IH. by rewrite <- app_assoc.
Qed.

(** The category tables of the common-commands summary: a row shows the
    identifiers of the row that the catalog has, in order, each as [Name] or
    [Name,Alias]; an identifier the catalog lacks is skipped, and the run
    neither panics nor returns an error for it. *)
Lemma displayCommonCommands_category_tables `{sort_pkg} `{internal_pkg}
    (cmd : HelpCommand.t) :
  let cmdInfo := HelpActor.CommandInfos (HelpCommand.Actor cmd) in
  ∃ banner rest : list Call,
    displayCommonCommands cmd =
      (Actor_CommandInfos :: banner
       ++ (CommonHelpCategoryList ≫= λ category : HelpCategory.t,
             [ UI_DisplayHeader (HelpCategory.CategoryName category);
               UI_DisplayTable commonCommandsIndent
                 ((λ row : list string,
                     omap (λ command : string,
                             commonCommandsEntry <$> cmdInfo !! command) row)
                    <$> HelpCategory.CommandList category) 4;
               UI_DisplayNewline ])
       ++ Config_Plugins :: rest, Returns ()).
Proof.
  intros cmdInfo.
  destruct (getSortedPluginCommands_Returns cmd) as [pcs Hpcs].
  unfold displayCommonCommands, CommandInfos.
  cbn -[for_range getSortedPluginCommands pluginCommandsTable commonCommandsRow].
  rewrite (for_range_calls _ _
             (λ category,
                [ UI_DisplayHeader (HelpCategory.CategoryName category);
                  UI_DisplayTable commonCommandsIndent
                    ((λ row : list string,
                        omap (λ command : string,
                                commonCommandsEntry <$> cmdInfo !! command) row)
                       <$> HelpCategory.CommandList category) 4;
                  UI_DisplayNewline ])).
  2:{ intros category _. rewrite foldl_snoc_fmap. cbn [app].
      rewrite (list_fmap_ext (commonCommandsRow cmdInfo)
                 (λ row : list string,
                    omap (λ command : string,
                            commonCommandsEntry <$> cmdInfo !! command) row));
        [done|].
      intros ? row _. apply commonCommandsRow_eq. }
  rewrite Hpcs. cbn -[pluginCommandsTable].
  by eexists [_; _; _], _.
Qed.


(** ** Flag names, and the plugin lookup *)

(** The name a flag is listed under on the detail page: [--Long, -Short]
    with both forms, [-Short] with the short form only, [--Long]
    otherwise. *)
Lemma flagName_cases (flag : CommandFlag.t) :
  let short := CommandFlag.Short flag in
  let long := CommandFlag.Long flag in
  (short ≠ "" → long ≠ "" → flagName flag = "--" +:+ long +:+ ", -" +:+ short)
  ∧ (short ≠ "" → long = "" → flagName flag = "-" +:+ short)
  ∧ (short = "" → flagName flag = "--" +:+ long)
  ∧ flagName (CommandFlag.mk "v" "verbose" "") = "--verbose, -v"
  ∧ flagName (CommandFlag.mk "v" "" "") = "-v"
  ∧ flagName (CommandFlag.mk "" "verbose" "") = "--verbose".
Proof.
  intros short long. unfold flagName. fold short long.
  repeat split; try done.
  - intros Hshort Hlong. by rewrite decide_True.
  - intros Hshort Hlong. rewrite decide_False by tauto. by rewrite decide_True.
  - intros Hshort. by rewrite !decide_False by tauto.
Qed.

(** [findPlugin] answers with the first command of that name, in the order
    the plugins are visited and, within a plugin, in the order of its
    commands. *)
Lemma findPlugin_first `{internal_pkg} (cmd : HelpCommand.t)
    (before after : list (string * Plugin.t)) (pluginName : string)
    (plugin : Plugin.t) (earlier later : list PluginCommand.t)
    (command : PluginCommand.t) :
  Config.Plugins (HelpCommand.Config cmd)
  = before ++ (pluginName, plugin) :: after →
  Plugin.Commands plugin = earlier ++ command :: later →
  no_plugin_command before (CommandName cmd) →
  Forall (λ c, PluginCommand.Name c ≠ CommandName cmd) earlier →
  PluginCommand.Name command = CommandName cmd →
  findPlugin cmd =
    ([Config_Plugins], Returns (ConvertPluginToCommandInfo command, true)).
Proof.
  intros Hplugins Hcommands Hbefore Hearlier Hname.
  unfold findPlugin, Plugins. cbn. do 2 f_equal. rewrite Hplugins. clear Hplugins.
  induction Hbefore as [|[otherName other] before Hother _ IH].
  - cbn. rewrite Hcommands. clear Hcommands.
    induction Hearlier as [|c earlier Hc _ IH]; cbn.
    + by rewrite decide_True.
    + by rewrite decide_False.
  - cbn in *. rewrite IH. clear IH.
    induction (Plugin.Commands other) as [|c commands IH]; [done|].
    apply Forall_cons in Hother as [Hc Hother].
    cbn. rewrite decide_False by done. by apply IH.
Qed.

(** ** The full listing on a catalog that lacks a listed command *)

(** C5, at a failing input: the catalog has [help] only, the category table
    lists [help], [login] and [target].  The full listing does not skip
    [login]: it displays a line for it, with an empty name and an empty
    description, and then panics on [target]; the common-commands summary,
    on the same catalog, skips both. *)
Theorem C5_full_listing_shows_absent_identifier :
  let cmd := example_cmd sparse_catalog [] "" true in
  sparse_catalog !! "login" = None
  ∧ @displayAllCommands merge_sort_pkg example_internal cmd =
      ([ Config_Plugins; Actor_CommandInfos;
         UI_DisplayHeader "GETTING STARTED:";
         UI_DisplayText "   {{.CommandName}}{{.Gap}}{{.CommandDescription}}"
           [("CommandName", "help"); ("CommandDescription", "Show help");
            ("Gap", " ")];
         UI_DisplayText "   {{.CommandName}}{{.Gap}}{{.CommandDescription}}"
           [("CommandName", ""); ("CommandDescription", ""); ("Gap", "")];
         UI_DisplayNewline ],
       Panics "strings: negative Repeat count")
  ∧ UI_DisplayTable "  " [["help,h"]] 4
      ∈ calls (@displayCommonCommands merge_sort_pkg example_internal cmd)
  ∧ outcome (@displayCommonCommands merge_sort_pkg example_internal cmd)
    = Returns ().
Proof. repeat split; by vm_compute; repeat constructor. Qed.

(** C9, at a failing input: with an empty catalog and no plugin the width
    is 0, the gap of the first listed command, [help], is 0 + 1 - 4, and
    [strings.Repeat] panics: the full listing, and [Execute] with it, stops
    after the first category header. *)
Theorem C9_full_listing_panics :
  let cmd := example_cmd ∅ [] "" true in
  @LongestCommandName example_internal ∅ [] + 1 - len "help" = -3
  ∧ @displayAllCommands merge_sort_pkg example_internal cmd =
      ([ Config_Plugins; Actor_CommandInfos;
         UI_DisplayHeader "GETTING STARTED:" ],
       Panics "strings: negative Repeat count")
  ∧ outcome (@Execute merge_sort_pkg example_internal cmd [])
    = Panics "strings: negative Repeat count".
Proof. repeat split; by vm_compute. Qed.

(** ** Examples *)

Lemma C1_witness :
  cell (pluginCommandsTable (plugin_command <$> ["a"; "b"; "c"; "d"; "e"])) 1 1
  = Some "d"
  ∧ cell (pluginCommandsTable (plugin_command <$> ["a"; "b"; "c"; "d"; "e"])) 1 2
    = Some "".
Proof.
  pose proof (proj1 C1_three_column_wrap_layout
                (plugin_command <$> ["a"; "b"; "c"; "d"; "e"]))
    as (_ & _ & Hcell & _).
  split.
  - apply (proj1 (Hcell 1%nat 1%nat ltac:(vm_compute; lia) ltac:(lia))).
    vm_compute. lia.
  - apply (proj2 (Hcell 1%nat 2%nat ltac:(vm_compute; lia) ltac:(lia))).
    vm_compute. lia.
Defined.

(** The specification's example: plugins zeta with commands B, A and alpha
    with commands D, C, listed in either order, give C, D, A, B. *)
Lemma C2_witness :
  NoDup example_plugins.*1
  ∧ @getSortedPluginCommands merge_sort_pkg
      (example_cmd example_catalog (reverse example_plugins) "" false)
    = @getSortedPluginCommands merge_sort_pkg
        (example_cmd example_catalog example_plugins "" false)
  ∧ outcome (@getSortedPluginCommands merge_sort_pkg
               (example_cmd example_catalog example_plugins "" false))
    = Returns (plugin_command <$> ["C"; "D"; "A"; "B"]).
Proof.
  assert (NoDup example_plugins.*1) as Hnodup
    by (apply (bool_decide_unpack _); vm_compute; exact I).
  split; [done|].
  destruct (@C2_sorted_plugin_commands merge_sort_pkg merge_sort_contract
              (example_cmd example_catalog example_plugins "" false) Hnodup)
    as (names & _ & _ & _ & _ & Horder).
  split; [|by vm_compute].
  apply Horder. change (reverse example_plugins ≡ₚ example_plugins).
  apply reverse_Permutation.
Defined.

(** [help] is a built-in, and a plugin has a command [help] too: the page is
    the built-in's and the plugins are not consulted. *)
Lemma C3_witness :
  let cmd := example_cmd example_catalog shadowing_plugins "help" false in
  builtin_lookup cmd = (help_info, None)
  ∧ ¬ no_plugin_command shadowing_plugins "help"
  ∧ nameLine cmd help_info ∈ output (@displayCommand example_internal cmd)
  ∧ Config_Plugins ∉ calls (@displayCommand example_internal cmd).
Proof.
  intros cmd.
  assert (builtin_lookup cmd = (help_info, None)) as Hlookup by reflexivity.
  destruct (proj1 (@C3_builtin_not_shadowed example_internal cmd)
              help_info Hlookup) as (_ & _ & Hname & Hplugins & _).
  split; [done|]. split; [|done].
  intros Habsent. apply Forall_cons in Habsent as [Hshadow _].
  by apply Forall_cons in Hshadow as [Hhelp _].
Defined.


Lemma findPlugin_first_witness :
  @findPlugin example_internal
    (example_cmd example_catalog example_plugins "C" false)
  = ([Config_Plugins], Returns (convertPlugin (plugin_command "C"), true)).
Proof.
  apply (@findPlugin_first example_internal
           (example_cmd example_catalog example_plugins "C" false)
           [("zeta", Plugin.mk [plugin_command "B"; plugin_command "A"])]
           [] "alpha" (Plugin.mk [plugin_command "D"; plugin_command "C"])
           [plugin_command "D"] [] (plugin_command "C"));
    try reflexivity; repeat constructor; done.
Defined.

Lemma C6_witness :
  let cmd := example_cmd example_catalog example_plugins "nonesuch" false in
  builtin_lookup cmd = (CommandInfo.zero, Some (ErrorInvalidCommand "nonesuch"))
  ∧ no_plugin_command example_plugins "nonesuch"
  ∧ @displayCommand example_internal cmd =
      ([Actor_CommandInfoByName "nonesuch"; Config_Plugins],
       Returns (Some (ErrorInvalidCommand "nonesuch"))).
Proof.
  intros cmd.
  assert (builtin_lookup cmd = (CommandInfo.zero, Some (ErrorInvalidCommand "nonesuch")))
    as Hlookup by (by vm_compute).
  assert (no_plugin_command example_plugins "nonesuch") as Habsent
    by (apply (bool_decide_unpack _); by vm_compute).
  destruct (@C6_unknown_command example_internal cmd _ _ Hlookup Habsent)
    as (Hout & _ & Hcalls).
  split; [done|]. split; [done|].
  destruct (displayCommand cmd) as [trace result]. cbn in *. by subst.
Defined.

(** [target] has flags and related commands, no alias and no environment:
    OPTIONS follows USAGE, SEE ALSO follows OPTIONS, and there is no ALIAS
    and no ENVIRONMENT heading. *)
Lemma C8_witness :
  let cmd := example_cmd example_catalog example_plugins "target" false in
  @resolves example_internal cmd target_info
  ∧ output (@displayCommand example_internal cmd) =
      nameAndUsage cmd target_info
      ++ detailSection "OPTIONS:"
           [ UI_DisplayText "   {{.Flags}}{{.Spaces}}{{.Description}}"
               [("Flags", "-o"); ("Spaces", "      "); ("Description", "Organization")];
             UI_DisplayText "   {{.Flags}}{{.Spaces}}{{.Description}}"
               [("Flags", "-s"); ("Spaces", "      "); ("Description", "Space")] ]
      ++ detailSection "SEE ALSO:" [UI_DisplayText "   create-org, login" []]
  ∧ UI_DisplayText "ALIAS:" [] ∉ output (@displayCommand example_internal cmd).
Proof.
  intros cmd.
  assert (@resolves example_internal cmd target_info) as Hresolves by reflexivity.
  destruct (@C8_detail_sections example_internal cmd target_info Hresolves)
    as (alias & options & environment & seeAlso
        & -> & -> & -> & -> & -> & Halias & _).
  split; [done|]. split; [by vm_compute|].
  rewrite Halias. by intros [].
Defined.

(** [help -a help]: the page of [help], which has an alias and no other
    section, and neither the listing nor a request for the catalog. *)
Lemma C10_witness :
  let cmd := example_cmd example_catalog example_plugins "help" false in
  CommandName cmd ≠ ""
  ∧ @resolves example_internal cmd help_info
  ∧ output (@Execute merge_sort_pkg example_internal
              (with_AllCommands true cmd) [])
    = nameAndUsage cmd help_info
      ++ detailSection "ALIAS:" [UI_DisplayText "   {{.Alias}}" [("Alias", "h")]]
  ∧ Actor_CommandInfos
      ∉ calls (@Execute merge_sort_pkg example_internal
                 (with_AllCommands true cmd) []).
Proof.
  intros cmd.
  assert (CommandName cmd ≠ "") as Hname by done.
  assert (@resolves example_internal cmd help_info) as Hresolves by reflexivity.
  destruct (proj1 (@C10_command_name_wins merge_sort_pkg example_internal cmd [])
              Hname true) as (_ & Hcatalog & Hpage & _).
  destruct (Hpage help_info Hresolves) as [_ ->].
  split; [done|]. split; [done|]. split; [by vm_compute|done].
Defined.


(** ** Runs that may panic *)

Lemma outcome_bind {A B} (m : Go A) (f : A → Go B) :
  outcome (m ≫= f) = match outcome m with
                      | Returns a => outcome (f a)
                      | Panics msg => Panics msg
                      end.
Proof. rewrite Go_bind_eq. by destruct (outcome m). Qed.

Lemma calls_bind_Forall {A B} (P : Call → Prop) (m : Go A) (f : A → Go B) :
  Forall P (calls m) → (∀ a, Forall P (calls (f a))) →
  Forall P (calls (m ≫= f)).
Proof.
  intros Hm Hf. rewrite Go_bind_eq. destruct (outcome m); [|done].
  cbn [calls fst]. apply Forall_app_2; [done|apply Hf].
Qed.

Lemma calls_for_range_Forall {A} (P : Call → Prop) (l : list A)
    (body : A → Go unit) :
  (∀ x, Forall P (calls (body x))) → Forall P (calls (for_range l body)).
Proof.
  intros Hbody. induction l as [|x l IH]; [by apply Forall_nil_2|].
  cbn [for_range]. by apply calls_bind_Forall.
Qed.

Lemma returns_iff_proper (P Q : Prop) (o : Outcome unit) :
  (P ↔ Q) → returns_iff P o → returns_iff Q o.
Proof. unfold returns_iff. tauto. Qed.

Lemma returns_iff_seq (P Q : Prop) (m k : Go unit) :
  returns_iff P (outcome m) → returns_iff Q (outcome k) →
  returns_iff (P ∧ Q) (outcome (m;; k)).
Proof.
  unfold returns_iff. rewrite outcome_bind.
  intros [[HP ->] | [HP ->]]; [|right; tauto].
  intros [[HQ ->] | [HQ ->]]; [left|right]; tauto.
Qed.

Lemma returns_iff_call_l (P : Prop) (c : Call) (k : Go unit) :
  returns_iff P (outcome k) → returns_iff P (outcome (call c;; k)).
Proof. by rewrite bind_call. Qed.

Lemma returns_iff_call_r (P : Prop) (m : Go unit) (c : Call) :
  returns_iff P (outcome m) → returns_iff P (outcome (m;; call c)).
Proof.
  intros Hm. apply (returns_iff_proper (P ∧ True)); [tauto|].
  apply returns_iff_seq; [done|]. by left.
Qed.

Lemma returns_iff_for_range {A} (P : A → Prop) (l : list A)
    (body : A → Go unit) :
  (∀ x, returns_iff (P x) (outcome (body x))) →
  returns_iff (Forall P l) (outcome (for_range l body)).
Proof.
  intros Hbody. induction l as [|x l IH].
  - left. split; [by apply Forall_nil_2|done].
  - cbn [for_range].
    apply (returns_iff_proper (P x ∧ Forall P l)); [by rewrite Forall_cons|].
    by apply returns_iff_seq.
Qed.

Lemma returns_iff_displayListingLine (cmd : HelpCommand.t)
    (name description key : string) (longestCmd : Z) :
  returns_iff (len key ≤ longestCmd + 1)
    (outcome (displayListingLine cmd name description (longestCmd + 1 - len key))).
Proof.
  unfold displayListingLine, strings_Repeat, returns_iff.
  case_decide; [right|left]; (split; [lia|done]).
Qed.

Lemma calls_displayListingLine_UI (cmd : HelpCommand.t)
    (name description : string) (gapWidth : Z) :
  Forall (λ c, is_UI_call c = true)
    (calls (displayListingLine cmd name description gapWidth)).
Proof.
  unfold displayListingLine, strings_Repeat.
  case_decide; [by apply Forall_nil_2|]. by apply Forall_cons_2.
Qed.

Section FullListingOutcome.
Context `{sort_pkg} `{internal_pkg}.
Implicit Type cmd : HelpCommand.t.

(** When the full listing returns and when it panics: it returns exactly
    when every identifier of the category table and every plugin command
    name is at most one byte longer than the width [longestCmd]; otherwise
    [strings.Repeat] panics, and [Execute] with it. *)
Theorem full_listing_returns_iff cmd :
  ∃ pluginCommands : list PluginCommand.t,
    outcome (getSortedPluginCommands cmd) = Returns pluginCommands
    ∧ let longestCmd :=
        LongestCommandName (HelpActor.CommandInfos (HelpCommand.Actor cmd))
          pluginCommands in
      let fits (name : string) := len name ≤ longestCmd + 1 in
      let all_fit :=
        Forall (λ category,
                  Forall (Forall fits) (HelpCategory.CommandList category))
               HelpCategoryList
        ∧ Forall (λ command, fits (PluginCommand.Name command)) pluginCommands in
      (outcome (displayAllCommands cmd) = Returns () ↔ all_fit)
      ∧ (outcome (displayAllCommands cmd) = Panics negativeRepeat ↔ ¬ all_fit)
      ∧ (CommandName cmd = "" → HelpCommand.AllCommands cmd = true →
         ∀ args,
           (outcome (Execute cmd args) = Returns None ↔ all_fit)
           ∧ (outcome (Execute cmd args) = Panics negativeRepeat ↔ ¬ all_fit)).
Proof.
  destruct (getSortedPluginCommands_Returns cmd) as [pcs Hpcs].
  exists pcs. split; [by rewrite Hpcs|].
  intros longestCmd fits all_fit.
  assert (returns_iff all_fit (outcome (displayAllCommands cmd))) as Hlisting.
  { unfold displayAllCommands.
    rewrite (bind_Returns _ _ pcs) by by rewrite Hpcs.
    rewrite (bind_Returns (CommandInfos cmd) _
               (HelpActor.CommandInfos (HelpCommand.Actor cmd))) by done.
    cbn beta zeta. cbn [outcome snd]. fold longestCmd.
    apply returns_iff_seq.
    - apply returns_iff_for_range. intros category.
      apply returns_iff_call_l, returns_iff_for_range. intros row.
      apply returns_iff_call_r, returns_iff_for_range. intros command.
      apply returns_iff_displayListingLine.
    - apply returns_iff_call_l, returns_iff_call_r, returns_iff_for_range.
      intros command. apply returns_iff_displayListingLine. }
  assert (∀ o : Outcome unit, returns_iff all_fit o →
            (o = Returns () ↔ all_fit) ∧ (o = Panics negativeRepeat ↔ ¬ all_fit))
    as Hsplit.
  { intros o [[Hfit ->] | [Hfit ->]]; (split; split; (done || tauto)). }
  destruct (Hsplit _ Hlisting) as [Hreturns Hpanics].
  split; [done|]. split; [done|].
  intros Hname Hall args. unfold Execute, displayFullHelp.
  rewrite decide_True by done. rewrite Hall.
  rewrite outcome_bind.
  assert (returns_iff all_fit
            (outcome (displayHelpPreamble cmd;; displayAllCommands cmd;;
                      displayHelpFooter cmd))) as Hfull.
  { apply (returns_iff_proper (True ∧ all_fit ∧ True)); [tauto|].
    apply returns_iff_seq; [by left|].
    apply returns_iff_seq; [done|by left]. }
  destruct Hfull as [[Hfit ->] | [Hfit ->]]; (split; split; (done || tauto)).
Qed.
End FullListingOutcome.

(** ** Which collaborators an invocation asks *)

Lemma collaborator_calls_bind {A B} (m : Go A) (f : A → Go B) :
  collaborator_calls (m ≫= f) =
    collaborator_calls m
    ++ match outcome m with
       | Returns a => collaborator_calls (f a)
       | Panics _ => []
       end.
Proof.
  unfold collaborator_calls. rewrite Go_bind_eq.
  destruct (outcome m); cbn [calls fst].
  - by rewrite filter_app.
  - by rewrite app_nil_r.
Qed.

Lemma collaborator_calls_UI_only {A} (m : Go A) :
  Forall (λ c, is_UI_call c = true) (calls m) → collaborator_calls m = [].
Proof.
  unfold collaborator_calls. induction 1 as [|c l Hc _ IH]; [done|].
  rewrite filter_cons, decide_False; [done|]. rewrite Hc. by intros [].
Qed.

Lemma calls_call_UI (c : Call) :
  is_UI_call c = true → Forall (λ c, is_UI_call c = true) (calls (call c)).
Proof. intros Hc. by apply Forall_cons_2. Qed.

Lemma collaborator_calls_call_UI {B} (c : Call) (k : Go B) :
  is_UI_call c = true →
  collaborator_calls (call c;; k) = collaborator_calls k.
Proof.
  intros Hc. rewrite collaborator_calls_bind. cbn [outcome snd call].
  by rewrite (collaborator_calls_UI_only (call c)) by by apply calls_call_UI.
Qed.

Section CollaboratorCalls.
Context `{sort_pkg} `{internal_pkg}.
Implicit Type cmd : HelpCommand.t.

Lemma collaborator_calls_getSortedPluginCommands cmd :
  collaborator_calls (getSortedPluginCommands cmd) = [Config_Plugins].
Proof.
  destruct (getSortedPluginCommands_Returns cmd) as [pcs ->]. done.
Qed.

Lemma collaborator_calls_displayCommonCommands cmd :
  outcome (displayCommonCommands cmd) = Returns ()
  ∧ collaborator_calls (displayCommonCommands cmd)
    = [Actor_CommandInfos; Config_Plugins].
Proof.
  split.
  { by destruct (displayCommonCommands_plugin_block cmd) as (? & ? & ? & _ & ? & _). }
  destruct (getSortedPluginCommands_Returns cmd) as [pcs Hpcs].
  unfold displayCommonCommands.
  rewrite collaborator_calls_bind.
  change (outcome (CommandInfos cmd))
    with (Returns (HelpActor.CommandInfos (HelpCommand.Actor cmd))).
  change (collaborator_calls (CommandInfos cmd)) with [Actor_CommandInfos].
  cbv beta iota.
  rewrite !collaborator_calls_call_UI by done.
  rewrite collaborator_calls_bind.
  rewrite for_range_Returns by done. cbn [outcome snd].
  rewrite (collaborator_calls_UI_only (_, Returns ())).
  2:{ cbn [calls fst]. apply Forall_bind, Forall_true. intros category.
      by repeat apply Forall_cons_2. }
  rewrite collaborator_calls_bind, Hpcs. cbn [outcome snd].
  by rewrite !collaborator_calls_call_UI by done.
Qed.

Lemma calls_listing_rows_UI cmd (cmdInfo : gmap string CommandInfo.t)
    (pluginCommands : list PluginCommand.t) (longestCmd : Z) :
  Forall (λ c, is_UI_call c = true)
    (calls
       (for_range HelpCategoryList (λ category,
          call (UI_DisplayHeader (HelpCategory.CategoryName category));;
          for_range (HelpCategory.CommandList category) (λ row,
            for_range row (λ command,
              let info := default CommandInfo.zero (cmdInfo !! command) in
              displayListingLine cmd
                (CommandInfo.Name info)
                (TranslateText cmd (CommandInfo.Description info))
                (longestCmd + 1 - len command));;
            call UI_DisplayNewline));;
        call (UI_DisplayHeader "INSTALLED PLUGIN COMMANDS:");;
        for_range pluginCommands (λ pluginCommand,
          displayListingLine cmd
            (PluginCommand.Name pluginCommand)
            (PluginCommand.HelpText pluginCommand)
            (longestCmd + 1 - len (PluginCommand.Name pluginCommand)));;
        call UI_DisplayNewline)).
Proof.
  repeat first
    [ apply calls_bind_Forall; [|intros _]
    | apply calls_for_range_Forall; intros ?
    | apply calls_displayListingLine_UI
    | by apply calls_call_UI ].
Qed.

Lemma collaborator_calls_displayAllCommands cmd :
  collaborator_calls (displayAllCommands cmd)
  = [Config_Plugins; Actor_CommandInfos].
Proof.
  unfold displayAllCommands.
  destruct (getSortedPluginCommands_Returns cmd) as [pcs Hpcs].
  rewrite collaborator_calls_bind, collaborator_calls_getSortedPluginCommands.
  rewrite Hpcs. cbn [outcome snd].
  rewrite collaborator_calls_bind.
  change (outcome (CommandInfos cmd))
    with (Returns (HelpActor.CommandInfos (HelpCommand.Actor cmd))).
  change (collaborator_calls (CommandInfos cmd)) with [Actor_CommandInfos].
  cbv beta iota zeta.
  by rewrite (collaborator_calls_UI_only _ (calls_listing_rows_UI cmd _ pcs _)).
Qed.

(** Which collaborators one invocation asks, and in which order.  Without a
    command name the actor is asked for the whole catalog once and the
    config for the plugin map once (catalog first in the summary, plugins
    first with [-a]), never for a single command, and no error is ever
    returned; with a command name the actor is asked once for that command,
    never for the catalog, and the plugin map is asked for, once and after
    it, exactly when the answer is the not-found error. *)
Theorem Execute_collaborator_calls cmd (args : list string) :
  (CommandName cmd = "" → HelpCommand.AllCommands cmd = false →
   outcome (Execute cmd args) = Returns None
   ∧ collaborator_calls (Execute cmd args) = [Actor_CommandInfos; Config_Plugins])
  ∧ (CommandName cmd = "" → HelpCommand.AllCommands cmd = true →
     (∀ err, outcome (Execute cmd args) ≠ Returns (Some err))
     ∧ collaborator_calls (Execute cmd args) = [Config_Plugins; Actor_CommandInfos])
  ∧ (CommandName cmd ≠ "" →
     collaborator_calls (Execute cmd args) =
       Actor_CommandInfoByName (CommandName cmd)
       :: match (builtin_lookup cmd).2 with
          | Some (ErrorInvalidCommand _) => [Config_Plugins]
          | _ => []
          end).
Proof.
  unfold Execute, displayFullHelp. split; [|split].
  - intros Hname Hall. rewrite decide_True by done. rewrite Hall.
    destruct (collaborator_calls_displayCommonCommands cmd) as [Hout Hcalls].
    rewrite outcome_bind, collaborator_calls_bind, Hout, Hcalls. done.
  - intros Hname Hall. rewrite decide_True by done. rewrite Hall. split.
    + intros err. rewrite outcome_bind.
      by destruct (outcome (displayHelpPreamble cmd;; displayAllCommands cmd;;
                            displayHelpFooter cmd)).
    + rewrite collaborator_calls_bind.
      assert (collaborator_calls
                (displayHelpPreamble cmd;; displayAllCommands cmd;;
                 displayHelpFooter cmd)
              = [Config_Plugins; Actor_CommandInfos]) as ->.
      { rewrite collaborator_calls_bind.
        change (outcome (displayHelpPreamble cmd)) with (Returns ()).
        change (collaborator_calls (displayHelpPreamble cmd)) with (@nil Call).
        cbv beta iota.
        rewrite collaborator_calls_bind, collaborator_calls_displayAllCommands.
        by destruct (outcome (displayAllCommands cmd)). }
      by destruct (outcome (displayHelpPreamble cmd;; displayAllCommands cmd;;
                            displayHelpFooter cmd)).
  - intros Hname. rewrite decide_False by done.
    assert (∀ cmdInfo, collaborator_calls (displayCommandInfo cmd cmdInfo) = [])
      as Hpage.
    { intros cmdInfo. apply collaborator_calls_UI_only,
        displayCommandInfo_UI_calls. }
    unfold collaborator_calls in *.
    destruct (builtin_lookup cmd) as [info [[name|msg]|]] eqn:Hlookup;
      cbn [snd].
    + destruct (displayCommand_invalid cmd info name Hlookup)
        as (pluginInfo & found & _ & ->).
      destruct found; cbn [calls fst]; [|done].
      rewrite !filter_cons. cbn [is_UI_call negb].
      rewrite !decide_True by done. by rewrite Hpage.
    + by rewrite (displayCommand_error cmd info _ Hlookup).
    + rewrite (displayCommand_builtin cmd info Hlookup). cbn [calls fst].
      rewrite filter_cons. cbn [is_UI_call negb].
      rewrite decide_True by done. by rewrite Hpage.
Qed.
End CollaboratorCalls.

(** ** No plugin command is lost or listed twice *)

Lemma bind_keys_map_index {B} (plugins : list (string * Plugin.t))
    (g : Plugin.t → list B) :
  NoDup plugins.*1 →
  plugins.*1 ≫= (λ name, g (map_index plugins name))
  = plugins ≫= λ entry, g entry.2.
Proof.
  intros Hnodup. rewrite list_fmap_bind.
  apply Forall_bind_ext, Forall_forall. intros [name plugin] Hin. cbn.
  by rewrite (map_index_elem_of plugins name plugin).
Qed.

(** The list [getSortedPluginCommands] returns is a rearrangement of all
    the commands of all the plugins: each command of each plugin is there,
    as often as its plugin lists it, and nothing else is; for an empty
    plugin map the list is empty. *)
Theorem getSortedPluginCommands_Permutation `{sort_contract}
    (cmd : HelpCommand.t) :
  let plugins := Config.Plugins (HelpCommand.Config cmd) in
  NoDup plugins.*1 →
  ∃ pluginCommands : list PluginCommand.t,
    outcome (getSortedPluginCommands cmd) = Returns pluginCommands
    ∧ pluginCommands ≡ₚ allPluginCommands plugins
    ∧ length pluginCommands = length (allPluginCommands plugins)
    ∧ (∀ command, command ∈ pluginCommands
                  ↔ ∃ entry, entry ∈ plugins
                             ∧ command ∈ Plugin.Commands entry.2)
    ∧ (plugins = [] → pluginCommands = []).
Proof.
  intros plugins Hnodup. rewrite getSortedPluginCommands_eq. fold plugins.
  eexists. split; [reflexivity|].
  assert (sort_Sort plugins.*1
            ≫= (λ pluginName,
                  sort_Sort (Plugin.Commands (map_index plugins pluginName)))
          ≡ₚ allPluginCommands plugins) as Hperm.
  { rewrite sort_Sort_Permutation.
    unfold allPluginCommands. rewrite <- (bind_keys_map_index plugins) by done.
    clear Hnodup. induction plugins.*1 as [|name names IH]; [done|].
    rewrite !bind_cons. by rewrite sort_Sort_Permutation, IH. }
  split; [done|]. split; [by rewrite Hperm|]. split.
  - intros command. rewrite Hperm. unfold allPluginCommands.
    rewrite list_elem_of_bind.
    split; intros (entry & Hfirst & Hsecond); by exists entry.
  - intros Hempty. apply Permutation_nil_r. by rewrite Hperm, Hempty.
Qed.

(** ** Reading the three-column table back *)

Lemma fmap_seq_padded (names : list string) (M : nat) :
  (length names ≤ M)%nat →
  (λ index, default "" (names !! index)) <$> seq 0 M
  = names ++ replicate (M - length names) "".
Proof.
  intros HM. apply list_eq. intros i.
  rewrite list_lookup_fmap.
  destruct (decide (i < M)%nat) as [Hi | Hi].
  - rewrite lookup_seq_lt by done. cbn.
    destruct (decide (i < length names)%nat) as [Hin | Hin].
    + rewrite lookup_app_l by done.
      by destruct (lookup_lt_is_Some_2 names i Hin) as [x ->].
    + rewrite lookup_app_r by lia.
      rewrite lookup_ge_None_2 by lia.
      by rewrite lookup_replicate_2 by lia.
  - rewrite lookup_seq_ge by lia. cbn. symmetry.
    apply lookup_ge_None_2. rewrite length_app, length_replicate. lia.
Qed.

(** Round trip of the column-major fill: the table of plugin commands read
    column by column is the list of names, in order, followed by at most two
    empty cells; in particular the first column has no empty cell. *)
Theorem pluginCommandsTable_readColumns (pluginCommands : list PluginCommand.t) :
  let names := PluginCommand.Name <$> pluginCommands in
  let table := pluginCommandsTable pluginCommands in
  let padding := (3 * length table - length names)%nat in
  readColumns table = names ++ replicate padding ""
  ∧ (padding ≤ 2)%nat
  ∧ (∀ i : nat, (i < length table)%nat → cell table i 0 = names !! i
                                         ∧ is_Some (names !! i)).
Proof.
  intros names table padding.
  pose proof (ceil_third_bounds (length pluginCommands)) as Hceil.
  assert (length table = ceil_third (length pluginCommands)) as Hrows
    by apply pluginCommandsTable_length.
  assert (length names = length pluginCommands) as HN by apply length_fmap.
  set (size := ceil_third (length pluginCommands)) in *.
  split; [|split].
  - assert (∀ j : nat, (j < 3)%nat →
              (λ row : list string, default "" (row !! j)) <$> table
              = (λ index, default "" (names !! index)) <$> seq (j * size) size)
      as Hcolumn.
    { intros j Hj. apply list_eq. intros i. rewrite !list_lookup_fmap.
      destruct (decide (i < size)%nat) as [Hi | Hi].
      - pose proof (pluginCommandsTable_cell pluginCommands i j Hi Hj) as Hcell.
        unfold cell in Hcell. fold table size names in Hcell.
        rewrite lookup_seq_lt by done. cbn.
        destruct (table !! i) as [row|] eqn:Hrow; cbn in *.
        + rewrite Hcell. cbn. by rewrite (Nat.add_comm (j * size) i).
        + done.
      - rewrite lookup_seq_ge by lia.
        by rewrite lookup_ge_None_2 by lia. }
    unfold readColumns. cbn [seq]. rewrite !bind_cons.
    change (@nil nat ≫= _) with (@nil string). rewrite app_nil_r.
    rewrite (Hcolumn 0%nat), (Hcolumn 1%nat), (Hcolumn 2%nat) by lia.
    rewrite <- !fmap_app.
    assert (seq (0 * size) size ++ seq (1 * size) size ++ seq (2 * size) size
            = seq 0 (3 * size)) as ->.
    { replace (3 * size)%nat with (size + (size + size))%nat by lia.
      rewrite !seq_app. repeat f_equal; lia. }
    subst padding. rewrite Hrows. apply fmap_seq_padded. lia.
  - lia.
  - intros i Hi.
    pose proof (pluginCommandsTable_cell pluginCommands i 0
                  ltac:(lia) ltac:(lia)) as Hcell.
    fold table size names in Hcell.
    replace (i + 0 * size)%nat with i in Hcell by lia.
    assert (is_Some (names !! i)) as [x Hx]
      by (apply lookup_lt_is_Some_2; lia).
    rewrite Hcell, Hx. by eauto.
Qed.

(** ** The plugin lookup, in full *)

Lemma findPlugin_commands_spec (convert : PluginCommand.t → CommandInfo.t)
    (name : string) (commands : list PluginCommand.t)
    (notHere : CommandInfo.t * bool) :
  let result :=
    foldr (λ command notInThisPlugin,
             if decide (PluginCommand.Name command = name)
             then (convert command, true) else notInThisPlugin)
          notHere commands in
  (result = notHere
   ∧ Forall (λ command, PluginCommand.Name command ≠ name) commands)
  ∨ (∃ earlier command later,
       commands = earlier ++ command :: later
       ∧ Forall (λ c, PluginCommand.Name c ≠ name) earlier
       ∧ PluginCommand.Name command = name
       ∧ result = (convert command, true)).
Proof.
  induction commands as [|c commands IH]; cbn zeta.
  - left. split; [done|apply Forall_nil_2].
  - cbn [foldr]. case_decide as Hc.
    + right. exists [], c, commands. by repeat split.
    + destruct IH as [[-> Hall] | (earlier & command & later & -> & ? & ? & ->)].
      * left. split; [done|]. by apply Forall_cons_2.
      * right. exists (c :: earlier), command, later.
        repeat split; try done. by apply Forall_cons_2.
Qed.

Lemma findPlugin_plugins_spec (convert : PluginCommand.t → CommandInfo.t)
    (name : string) (plugins : list (string * Plugin.t)) :
  let result :=
    foldr (λ pluginConfig notHere,
             foldr (λ command notInThisPlugin,
                      if decide (PluginCommand.Name command = name)
                      then (convert command, true) else notInThisPlugin)
                   notHere (Plugin.Commands pluginConfig.2))
          (CommandInfo.zero, false) plugins in
  (result = (CommandInfo.zero, false) ∧ no_plugin_command plugins name)
  ∨ (∃ before pluginName plugin after earlier command later,
       plugins = before ++ (pluginName, plugin) :: after
       ∧ Plugin.Commands plugin = earlier ++ command :: later
       ∧ no_plugin_command before name
       ∧ Forall (λ c, PluginCommand.Name c ≠ name) earlier
       ∧ PluginCommand.Name command = name
       ∧ result = (convert command, true)).
Proof.
  induction plugins as [|[pluginName plugin] plugins IH]; cbn zeta.
  - left. split; [done|apply Forall_nil_2].
  - cbn [foldr snd].
    destruct (findPlugin_commands_spec convert name (Plugin.Commands plugin)
                (foldr (λ pluginConfig notHere,
                          foldr (λ command notInThisPlugin,
                                   if decide (PluginCommand.Name command = name)
                                   then (convert command, true)
                                   else notInThisPlugin)
                                notHere (Plugin.Commands pluginConfig.2))
                       (CommandInfo.zero, false) plugins))
      as [[-> Hall] | (earlier & command & later & Hcommands & ? & ? & ->)].
    + destruct IH as [[-> Hrest]
                     | (before & pn & p & after & earlier & command & later
                        & -> & ? & ? & ? & ? & ->)].
      * left. split; [done|]. by apply Forall_cons_2.
      * right. exists ((pluginName, plugin) :: before), pn, p, after,
                 earlier, command, later.
        repeat split; try done. by apply Forall_cons_2.
    + right. exists [], pluginName, plugin, plugins, earlier, command, later.
      repeat split; try done. apply Forall_nil_2.
Qed.

Lemma no_plugin_command_elem_of (plugins : list (string * Plugin.t))
    (name : string) (entry : string * Plugin.t) (command : PluginCommand.t) :
  no_plugin_command plugins name → entry ∈ plugins →
  command ∈ Plugin.Commands entry.2 → PluginCommand.Name command ≠ name.
Proof.
  unfold no_plugin_command. rewrite Forall_forall. intros Hall Hentry.
  specialize (Hall entry Hentry). rewrite Forall_forall in Hall. apply Hall.
Qed.

Section PluginLookup.
Context `{internal_pkg}.
Implicit Type cmd : HelpCommand.t.

Lemma findPlugin_spec cmd :
  let plugins := Config.Plugins (HelpCommand.Config cmd) in
  let name := CommandName cmd in
  (findPlugin cmd = ([Config_Plugins], Returns (CommandInfo.zero, false))
   ∧ no_plugin_command plugins name)
  ∨ (∃ before pluginName plugin after earlier command later,
       plugins = before ++ (pluginName, plugin) :: after
       ∧ Plugin.Commands plugin = earlier ++ command :: later
       ∧ no_plugin_command before name
       ∧ Forall (λ c, PluginCommand.Name c ≠ name) earlier
       ∧ PluginCommand.Name command = name
       ∧ findPlugin cmd
         = ([Config_Plugins], Returns (ConvertPluginToCommandInfo command, true))).
Proof.
  intros plugins name. unfold findPlugin, Plugins. cbn. fold plugins name.
  destruct (findPlugin_plugins_spec ConvertPluginToCommandInfo name plugins)
    as [[-> Habsent]
       | (before & pn & p & after & earlier & command & later
          & ? & ? & ? & ? & ? & ->)].
  - by left.
  - right. exists before, pn, p, after, earlier, command, later. by repeat split.
Qed.

(** [findPlugin] finds a command exactly when some plugin has one of the
    requested name: then what it returns is the conversion of a command of
    that name of one of the plugins; otherwise it returns the zero
    CommandInfo with found = false. *)
Theorem findPlugin_found_iff cmd :
  let plugins := Config.Plugins (HelpCommand.Config cmd) in
  ∃ (info : CommandInfo.t) (found : bool),
    findPlugin cmd = ([Config_Plugins], Returns (info, found))
    ∧ (found = true
       ↔ ∃ entry command,
           entry ∈ plugins ∧ command ∈ Plugin.Commands entry.2
           ∧ PluginCommand.Name command = CommandName cmd)
    ∧ (found = true →
       ∃ entry command,
         entry ∈ plugins ∧ command ∈ Plugin.Commands entry.2
         ∧ PluginCommand.Name command = CommandName cmd
         ∧ info = ConvertPluginToCommandInfo command)
    ∧ (found = false → info = CommandInfo.zero).
Proof.
  intros plugins.
  destruct (findPlugin_spec cmd)
    as [[-> Habsent]
       | (before & pn & p & after & earlier & command & later
          & Hplugins & Hcommands & _ & _ & Hname & ->)].
  - exists CommandInfo.zero, false. split; [done|]. split; [|done].
    split; [done|]. intros (entry & command & Hentry & Hcommand & Hname).
    by destruct (no_plugin_command_elem_of _ _ _ _ Habsent Hentry Hcommand).
  - exists (ConvertPluginToCommandInfo command), true. split; [done|].
    assert ((pn, p) ∈ plugins) as Hentry.
    { fold plugins in Hplugins. rewrite Hplugins.
      apply elem_of_app. right. left. }
    assert (command ∈ Plugin.Commands p) as Hcommand.
    { rewrite Hcommands. apply elem_of_app. right. left. }
    split; [|split; [|done]].
    + split; [|done]. intros _. by exists (pn, p), command.
    + intros _. by exists (pn, p), command.
Qed.


(** All or nothing: [displayCommand] never panics; either it returns an
    error and displays nothing, or it returns nil and displays a whole page,
    starting with [NAME:] and the name line of the command it resolved.  The
    error is the actor's own when that is of the not-found kind, and the
    zero [ErrorInvalidCommand{}] in place of an error of any other kind. *)
Theorem displayCommand_all_or_nothing cmd :
  (∃ err,
     (builtin_lookup cmd).2 = Some err
     ∧ outcome (displayCommand cmd)
       = Returns (Some match err with
                       | ErrorInvalidCommand name => ErrorInvalidCommand name
                       | ErrorOther _ => ErrorInvalidCommand ""
                       end)
     ∧ output (displayCommand cmd) = []
     ∧ ∀ cmdInfo, ¬ resolves cmd cmdInfo)
  ∨ (∃ cmdInfo rest,
       resolves cmd cmdInfo
       ∧ outcome (displayCommand cmd) = Returns None
       ∧ output (displayCommand cmd)
         = UI_DisplayText "NAME:" [] :: nameLine cmd cmdInfo :: rest).
Proof.
  assert (∀ cmdInfo, resolves cmd cmdInfo →
            ∃ rest, outcome (displayCommand cmd) = Returns None
                    ∧ output (displayCommand cmd)
                      = UI_DisplayText "NAME:" [] :: nameLine cmd cmdInfo :: rest)
    as Hpage.
  { intros cmdInfo Hresolves.
    destruct (displayCommand_resolved cmd cmdInfo Hresolves) as [Hout ->].
    rewrite displayCommandInfo_eq. cbn [calls fst nameAndUsage app].
    by eexists. }
  destruct (builtin_lookup cmd) as [info [[name|msg]|]] eqn:Hlookup.
  - destruct (displayCommand_invalid cmd info name Hlookup)
      as (pluginInfo & [|] & Hfind & Hrun).
    + right. exists pluginInfo.
      assert (resolves cmd pluginInfo) as Hresolves
        by (unfold resolves; by rewrite Hlookup).
      destruct (Hpage _ Hresolves) as (rest & ? & ?). by exists rest.
    + left. exists (ErrorInvalidCommand name). rewrite Hrun.
      do 3 (split; [done|]). intros cmdInfo. unfold resolves.
      rewrite Hlookup, Hfind. by intros [=].
  - left. exists (ErrorOther msg).
    rewrite (displayCommand_error cmd info _ Hlookup) by done.
    do 3 (split; [done|]). intros cmdInfo. unfold resolves.
    rewrite Hlookup. by intros [].
  - right. exists info.
    assert (resolves cmd info) as Hresolves
      by (unfold resolves; by rewrite Hlookup).
    destruct (Hpage _ Hresolves) as (rest & ? & ?). by exists rest.
Qed.
End PluginLookup.

(** ** Padding on the detail page *)

Lemma repeat_string_space_length (n : nat) :
  String.length (repeat_string " " n) = n.
Proof.
  induction n as [|n IH]; [done|]. cbn [repeat_string].
  rewrite <- IH at 2. reflexivity.
Qed.

Lemma string_app_length (s t : string) :
  String.length (s +:+ t) = (String.length s + String.length t)%nat.
Proof.
  induction s as [|c s IH]; [done|].
  change (String c s +:+ t) with (String c (s +:+ t)).
  cbn [String.length]. by rewrite IH.
Qed.

Lemma string_prefix_app (s t : string) : String.prefix s (s +:+ t) = true.
Proof.
  induction s as [|c s IH]; [by destruct t|].
  change (String c s +:+ t) with (String c (s +:+ t)).
  cbn [String.prefix]. by destruct (Ascii.ascii_dec c c).
Qed.

Lemma string_app_cons (c : Ascii.ascii) (s t : string) :
  String c s +:+ t = String c (s +:+ t).
Proof. reflexivity. Qed.

(** *** Counting runes *)

Lemma utf8_first_lo (b : N) (size : nat) (lo hi : N) :
  utf8_first b = Some (size, (lo, hi)) → (0x80 ≤ lo)%N.
Proof.
  unfold utf8_first. repeat case_match; intros [= <- <- <-]; lia.
Qed.

Lemma utf8_rune_size_ascii (c : Ascii.ascii) (rest : string) :
  (byte_value c < 0x80)%N → utf8_rune_size c rest = 1%nat.
Proof.
  intros Hascii. unfold utf8_rune_size, utf8_first.
  destruct (N.ltb_spec (byte_value c) 0xC2); [done|lia].
Qed.

Lemma utf8_rune_size_le (c : Ascii.ascii) (rest : string) :
  (utf8_rune_size c rest - 1 ≤ String.length rest)%nat.
Proof.
  unfold utf8_rune_size, utf8_continues.
  destruct (utf8_first (byte_value c)) as [[size [lo hi]]|]; [|cbn; lia].
  destruct rest as [|c1 [|c2 [|c3 rest]]]; cbn [String.length];
    repeat (case_match; try (cbn; lia)); simplify_eq; cbn; lia.
Qed.

(** A string that is empty or starts with an ASCII byte continues no rune. *)
Lemma utf8_continues_app (lo hi : N) (s t : string) :
  (0x80 ≤ lo)%N →
  match t with
  | EmptyString => True
  | String c _ => (byte_value c < 0x80)%N
  end →
  utf8_continues lo hi (s +:+ t) = (λ rest, rest +:+ t) <$> utf8_continues lo hi s.
Proof.
  intros Hlo Ht. destruct s as [|c s].
  - change ("" +:+ t) with t. destruct t as [|c t]; [done|]. cbn.
    destruct (N.leb_spec lo (byte_value c)); [lia|done].
  - rewrite string_app_cons. cbn.
    by destruct ((lo <=? byte_value c)%N && (byte_value c <=? hi)%N).
Qed.

Lemma utf8_rune_size_app (c : Ascii.ascii) (rest t : string) :
  match t with
  | EmptyString => True
  | String c _ => (byte_value c < 0x80)%N
  end →
  utf8_rune_size c (rest +:+ t) = utf8_rune_size c rest.
Proof.
  intros Ht. unfold utf8_rune_size.
  destruct (utf8_first (byte_value c)) as [[size [lo hi]]|] eqn:Hfirst; [|done].
  apply utf8_first_lo in Hfirst.
  rewrite utf8_continues_app by done.
  destruct (utf8_continues lo hi rest) as [rest1|]; [|done]. cbn.
  case_decide; [done|].
  rewrite utf8_continues_app by (done || lia).
  destruct (utf8_continues 128 191 rest1) as [rest2|]; [|done]. cbn.
  case_decide; [done|].
  rewrite utf8_continues_app by (done || lia).
  by destruct (utf8_continues 128 191 rest2).
Qed.

Lemma rune_count_from_app (s t : string) (skip : nat) :
  (skip ≤ String.length s)%nat →
  match t with
  | EmptyString => True
  | String c _ => (byte_value c < 0x80)%N
  end →
  rune_count_from skip (s +:+ t)
  = (rune_count_from skip s + rune_count_from 0 t)%nat.
Proof.
  intros Hskip Ht. revert skip Hskip.
  induction s as [|c s IH]; intros skip Hskip.
  - cbn in Hskip. by replace skip with 0%nat by lia.
  - rewrite string_app_cons. cbn [rune_count_from String.length] in *.
    destruct skip as [|skip]; [|apply IH; lia].
    rewrite utf8_rune_size_app by done.
    rewrite IH by apply utf8_rune_size_le. done.
Qed.

Lemma rune_count_spaces (n : nat) :
  rune_count_from 0 (repeat_string " " n) = n.
Proof.
  induction n as [|n IH]; [done|]. cbn [repeat_string].
  rewrite string_app_cons. change ("" +:+ repeat_string " " n)
    with (repeat_string " " n).
  cbn [rune_count_from]. rewrite utf8_rune_size_ascii by (by vm_compute).
  cbn. by rewrite IH.
Qed.

(** Padding adds one rune for each space. *)
Lemma utf8_RuneCountInString_padded (s : string) (n : nat) :
  utf8_RuneCountInString (s +:+ repeat_string " " n)
  = (utf8_RuneCountInString s + n)%nat.
Proof.
  unfold utf8_RuneCountInString.
  rewrite rune_count_from_app, rune_count_spaces; [done|lia|].
  destruct n; [done|]. by vm_compute.
Qed.

(** On ASCII text a rune is a byte. *)
Lemma utf8_RuneCountInString_ascii (s : string) :
  Forall (λ c, (byte_value c < 0x80)%N) (String.list_ascii_of_string s) →
  utf8_RuneCountInString s = String.length s.
Proof.
  unfold utf8_RuneCountInString.
  induction s as [|c s IH]; [done|]. cbn [String.list_ascii_of_string].
  intros [Hc Hs]%Forall_cons. cbn [rune_count_from String.length].
  rewrite utf8_rune_size_ascii by done. cbn. by rewrite IH.
Qed.

(** [né=1] has 5 bytes and 4 runes: [%-29s] follows it with 25 spaces, and
    the field is 30 bytes long. *)
Lemma fmt_pad_right_runes :
  String.length "né=1" = 5%nat
  ∧ utf8_RuneCountInString "né=1" = 4%nat
  ∧ String.length (fmt_pad_right 29 "né=1") = 30%nat.
Proof. by vm_compute. Qed.

Section DetailPadding.
Context `{internal_pkg}.
Implicit Type cmd : HelpCommand.t.

(** A flag line puts the description in the column the caller asks for:
    when the flag's name is no longer than [nameWidth], [displayFlag]
    displays one line whose name and spaces together are [nameWidth] bytes
    long; when the name is longer it displays nothing and panics in
    [strings.Repeat]. *)
Theorem displayFlag_padding cmd (nameWidth : Z) (flag : CommandFlag.t) :
  (len (flagName flag) ≤ nameWidth →
   ∃ spaces : string,
     displayFlag cmd nameWidth flag
     = ([UI_DisplayText
           (commandIndent +:+ "{{.Flags}}{{.Spaces}}{{.Description}}")
           [("Flags", flagName flag); ("Spaces", spaces);
            ("Description",
             TranslateText cmd (CommandFlag.Description flag))]],
        Returns ())
     ∧ len (flagName flag) + len spaces = nameWidth)
  ∧ (nameWidth < len (flagName flag) →
     displayFlag cmd nameWidth flag = ([], Panics negativeRepeat)).
Proof.
  unfold displayFlag, strings_Repeat. split; intros Hwidth.
  - rewrite decide_False by lia.
    exists (repeat_string " " (Z.to_nat (nameWidth - len (flagName flag)))).
    split; [done|]. unfold len in *.
    rewrite repeat_string_space_length. lia.
  - by rewrite decide_True by lia.
Qed.

(** An environment variable is shown as [NAME=default] in a field of 29
    runes: a token of fewer runes is followed by spaces up to 29 runes, a
    token of 29 runes or more is shown whole, with nothing between it and
    the description; on an ASCII token runes are bytes, and the field is
    29 bytes long or as long as the token. *)
Theorem displayEnvVar_field cmd (envVar : EnvironmentVariable.t) :
  let token := envVarToken envVar in
  let runes := utf8_RuneCountInString token in
  ∃ field : string,
    displayEnvVar cmd envVar
    = ([UI_DisplayText (commandIndent +:+ "{{.EnvVar}}{{.Description}}")
          [("EnvVar", field);
           ("Description",
            TranslateText cmd (EnvironmentVariable.Description envVar))]],
       Returns ())
    ∧ field = token +:+ repeat_string " " (29 - runes)
    ∧ String.prefix token field = true
    ∧ utf8_RuneCountInString field = Nat.max 29 runes
    ∧ String.length field = (String.length token + (29 - runes))%nat
    ∧ ((29 ≤ runes)%nat → field = token)
    ∧ (Forall (λ c, (byte_value c < 0x80)%N) (String.list_ascii_of_string token) →
       runes = String.length token
       ∧ String.length field = Nat.max 29 (String.length token)).
Proof.
  intros token runes.
  exists (fmt_pad_right 29 token).
  split; [done|]. unfold fmt_pad_right. fold runes.
  split; [done|].
  split; [apply string_prefix_app|].
  split; [rewrite utf8_RuneCountInString_padded; fold runes; lia|].
  assert (String.length (token +:+ repeat_string " " (29 - runes))
          = (String.length token + (29 - runes))%nat) as Hlength
    by (by rewrite string_app_length, repeat_string_space_length).
  split; [done|]. split.
  - intros Hlong. replace (29 - runes)%nat with 0%nat by lia.
    apply string_app_nil_r.
  - intros Hascii. apply utf8_RuneCountInString_ascii in Hascii.
    fold runes in Hascii. split; [done|]. rewrite Hlength. lia.
Qed.

(** The flags of the detail page: for a resolved command, each of its flags
    has a line on the page, and the name on that line is [--Long, -Short]
    when the flag has both forms, [-Short] when it has the short form only
    and [--Long] otherwise; name and spaces together are as long as the
    longest flag name and 6 more. *)
Theorem displayCommand_flag_lines cmd (cmdInfo : CommandInfo.t)
    (flag : CommandFlag.t) :
  resolves cmd cmdInfo →
  flag ∈ CommandInfo.Flags cmdInfo →
  let short := CommandFlag.Short flag in
  let long := CommandFlag.Long flag in
  ∃ name spaces : string,
    UI_DisplayText (commandIndent +:+ "{{.Flags}}{{.Spaces}}{{.Description}}")
      [("Flags", name); ("Spaces", spaces);
       ("Description", TranslateText cmd (CommandFlag.Description flag))]
      ∈ output (displayCommand cmd)
    ∧ (short ≠ "" → long ≠ "" → name = "--" +:+ long +:+ ", -" +:+ short)
    ∧ (short ≠ "" → long = "" → name = "-" +:+ short)
    ∧ (short = "" → name = "--" +:+ long)
    ∧ len name + len spaces
      = LongestFlagWidth (CommandInfo.Flags cmdInfo) + 6
    ∧ UI_DisplayText "OPTIONS:" [] ∈ output (displayCommand cmd).
Proof.
  intros Hresolves Hflag short long.
  destruct (displayCommand_resolved cmd cmdInfo Hresolves) as [_ ->].
  rewrite displayCommandInfo_eq. cbn [calls fst].
  assert (length (CommandInfo.Flags cmdInfo) ≠ 0%nat) as Hsome.
  { intros Hnone%nil_length_inv. rewrite Hnone in Hflag.
    by apply elem_of_nil in Hflag. }
  rewrite (decide_True (P := length (CommandInfo.Flags cmdInfo) ≠ 0%nat))
    by done.
  exists (flagName flag),
    (repeat_string " "
       (Z.to_nat (LongestFlagWidth (CommandInfo.Flags cmdInfo) + 6
                  - len (flagName flag)))).
  destruct (flagName_cases flag) as (Hboth & Hshort & Hlong & _).
  assert (len (flagName flag) ≤ LongestFlagWidth (CommandInfo.Flags cmdInfo))
    as Hle by (apply max_len_ge, list_elem_of_fmap; by exists flag).
  split.
  { rewrite !elem_of_app. right. right. left. unfold detailSection.
    do 2 apply list_elem_of_further.
    apply list_elem_of_fmap. by exists flag. }
  do 3 (split; [done|]). split.
  - unfold len in *. rewrite repeat_string_space_length. lia.
  - rewrite !elem_of_app. right. right. left. unfold detailSection.
    apply list_elem_of_further, list_elem_of_here.
Qed.
End DetailPadding.

(** ** Setup *)

Section SetupThenExecute.
Context `{sharedaction_pkg} `{sort_pkg} `{internal_pkg}.

(** [Setup] returns nil, keeps the parsed arguments and replaces the three
    collaborators by the new actor and by the configuration and the UI that
    are passed to it; what [Execute] does afterwards depends on the command
    name, the [-a] option and these three, and on nothing the command held
    before. *)
Theorem Setup_replaces_collaborators (cmd : HelpCommand.t)
    (config : Config.t) (ui : UI.t) (args : list string) :
  (Setup cmd config ui).2 = None
  ∧ HelpCommand.OptionalArgs (Setup cmd config ui).1
    = HelpCommand.OptionalArgs cmd
  ∧ HelpCommand.AllCommands (Setup cmd config ui).1
    = HelpCommand.AllCommands cmd
  ∧ HelpCommand.Actor (Setup cmd config ui).1 = NewActor
  ∧ HelpCommand.Config (Setup cmd config ui).1 = config
  ∧ HelpCommand.UI (Setup cmd config ui).1 = ui
  ∧ builtin_lookup (Setup cmd config ui).1
    = HelpActor.CommandInfoByName NewActor (CommandName cmd)
  ∧ Execute (Setup cmd config ui).1 args
    = Execute (HelpCommand.mk ui NewActor config
                 (HelpCommand.OptionalArgs cmd) (HelpCommand.AllCommands cmd))
              args
  ∧ (∀ cmd0 : HelpCommand.t,
       HelpCommand.OptionalArgs cmd0 = HelpCommand.OptionalArgs cmd →
       HelpCommand.AllCommands cmd0 = HelpCommand.AllCommands cmd →
       Execute (Setup cmd0 config ui).1 args
       = Execute (Setup cmd config ui).1 args).
Proof.
  repeat split. intros cmd0 Hargs Hall. unfold Setup. cbn [fst].
  destruct cmd0, cmd. cbn in Hargs, Hall. by subst.
Qed.
End SetupThenExecute.

(** ** The new statements at concrete inputs *)

Lemma getSortedPluginCommands_Permutation_witness :
  let cmd := example_cmd example_catalog example_plugins "" false in
  NoDup example_plugins.*1
  ∧ ∃ pluginCommands : list PluginCommand.t,
      outcome (@getSortedPluginCommands merge_sort_pkg cmd)
      = Returns pluginCommands
      ∧ pluginCommands ≡ₚ allPluginCommands example_plugins.
Proof.
  intros cmd.
  assert (NoDup example_plugins.*1) as Hnodup
    by (apply (bool_decide_unpack _); vm_compute; exact I).
  split; [done|].
  destruct (@getSortedPluginCommands_Permutation merge_sort_pkg
              merge_sort_contract cmd Hnodup)
    as (pluginCommands & Hout & Hperm & _).
  by exists pluginCommands.
Defined.


(** [target] has the flags [-o] and [-s], in the short form only. *)
Lemma displayCommand_flag_lines_witness :
  let cmd := example_cmd example_catalog example_plugins "target" false in
  @resolves example_internal cmd target_info
  ∧ CommandFlag.mk "o" "" "Organization" ∈ CommandInfo.Flags target_info
  ∧ ∃ spaces : string,
      UI_DisplayText "   {{.Flags}}{{.Spaces}}{{.Description}}"
        [("Flags", "-o"); ("Spaces", spaces); ("Description", "Organization")]
        ∈ output (@displayCommand example_internal cmd)
      ∧ len spaces = 6.
Proof.
  intros cmd.
  assert (@resolves example_internal cmd target_info) as Hresolves by reflexivity.
  assert (CommandFlag.mk "o" "" "Organization" ∈ CommandInfo.Flags target_info)
    as Hflag by apply list_elem_of_here.
  split; [done|]. split; [done|].
  destruct (@displayCommand_flag_lines example_internal cmd target_info _
              Hresolves Hflag)
    as (name & spaces & Hline & _ & Hshort & _ & Hwidth & _).
  rewrite (Hshort ltac:(done) ltac:(done)) in Hline, Hwidth.
  exists spaces. split; [exact Hline|].
  change (2 + len spaces = 2 + 6) in Hwidth. lia.
Defined.
